(** * chords: notes, intervals, chord parsing, canonical form and spelling

    A shallow embedding of the Go package [chords] (notes.go, chords.go and
    the goyacc grammar chordparse.y with its generated tables), followed by
    the properties of the package that are stated against it.

    Conventions of the embedding.
    - Go's [int8] and [byte] values are integers of [Z]; every operation
      that can leave the range is followed by [wrap8] or [wrapb].
    - A Go [string] is a [string] of bytes; the lexer works on the code
      points ([rune]s, as [Z]) that [decode_runes] extracts from it.
    - A run-time panic (index out of range, missing table row) is the
      result [Panic]; a loop of the model that is cut by its bound yields
      [OutOfFuel], which is never an answer of the code.
    - A Go [map] is a [gmap]; a [range] over a map and [sort.Sort] visit
      or permute in an order the language leaves open, which the model
      takes from an explicit [Order] argument. *)

From stdpp Require Import gmap strings pretty.
From Stdlib Require Import ZArith String Ascii Permutation Sorted.

Open Scope Z_scope.

(* ================================================================= *)
(** ** Results of partial operations *)

Inductive result (A : Type) : Type :=
| Ok (a : A)
| Panic
| OutOfFuel.

Arguments Ok {A} a.
Arguments Panic {A}.
Arguments OutOfFuel {A}.

Definition rbind {A B : Type} (r : result A) (k : A -> result B) : result B :=
  match r with
  | Ok a => k a
  | Panic => Panic
  | OutOfFuel => OutOfFuel
  end.

Notation "'do' x <- r ; k" := (rbind r (fun x => k))
  (at level 10, x name, r at level 100, k at level 200).

(** [l[i]] on a Go slice: panics outside [0, len l). *)
Definition idx {A : Type} (l : list A) (i : Z) : result A :=
  if i <? 0 then Panic
  else match nth_error l (Z.to_nat i) with
       | Some a => Ok a
       | None => Panic
       end.

(* ================================================================= *)
(** ** Machine integers *)

Definition wrap8 (z : Z) : Z := (z + 128) mod 256 - 128.
Definition wrapb (z : Z) : Z := z mod 256.

(** posMod computes modulo, but always returning non-negative result.
    Go's [%] truncates towards zero ([Z.rem]); both operands are [int8]. *)
Definition posMod (x n : Z) : Z := wrap8 (Z.rem (wrap8 (Z.rem x n + n)) n).

(* ================================================================= *)
(** ** notes.go: note names, accidentals, notes, intervals *)

(** [NoteName] is a byte; the constants A..G are 'A'..'G'. *)
Definition A_ : Z := 65.
Definition B_ : Z := 66.
Definition C_ : Z := 67.
Definition D_ : Z := 68.
Definition E_ : Z := 69.
Definition F_ : Z := 70.
Definition G_ : Z := 71.

(** The slice filled by the first [init]. *)
Definition noteCardinals : list Z := [0; 2; 3; 5; 7; 8; 10].

Definition NoteName_Cardinal (n : Z) : result Z :=
  idx noteCardinals (wrapb (n - 65)).

Definition NoteName_IsValid (n : Z) : bool := (A_ <=? n) && (n <=? G_).

(** [Accidental] is an [int8]. *)
Definition Natural : Z := 0.
Definition Flat : Z := -1.
Definition Sharp : Z := 1.
Definition DblFlat : Z := -2.
Definition DblSharp : Z := 2.

Definition Accidental_Offset (a : Z) : Z := a.
Definition Accidental_IsValid (a : Z) : bool := (DblFlat <=? a) && (a <=? DblSharp).

Record Note : Type := mkNote { note_N : Z; note_Acc : Z }.

Global Instance Note_eq_dec : EqDecision Note.
Proof. solve_decision. Defined.

Global Instance Note_countable : Countable Note.
Proof.
  refine (inj_countable' (fun n => (note_N n, note_Acc n))
                         (fun p => mkNote (fst p) (snd p)) _).
  intros []; reflexivity.
Defined.

Definition Note_IsValid (n : Note) : bool :=
  NoteName_IsValid (note_N n) && Accidental_IsValid (note_Acc n).

Definition Note_Cardinal (n : Note) : result Z :=
  do c <- NoteName_Cardinal (note_N n);
  Ok (posMod (wrap8 (c + Accidental_Offset (note_Acc n))) 12).

Record Interval : Type := mkInterval { intv_Val : Z; intv_Offset : Z }.

Definition stepsByInterval : list Z := [0; 2; 4; 5; 7; 9; 11].

Definition Interval_NumHalfSteps (i : Interval) : result Z :=
  do s <- idx stepsByInterval (wrap8 (intv_Val i - 1));
  Ok (posMod (wrap8 (s + intv_Offset i)) 12).

Definition Interval_IsValid (i : Interval) : bool :=
  (1 <=? intv_Val i) && (intv_Val i <=? 7) &&
  (-2 <=? intv_Offset i) && (intv_Offset i <=? 2).

(** *** Accidental symbols (UTF-8 bytes of the source's literals) *)

Definition bytes (l : list Z) : string :=
  string_of_list_ascii (List.map (fun z => ascii_of_N (Z.to_N z)) l).

Definition sym_natural : string := bytes [226; 153; 174].      (* U+266E *)
Definition sym_sharp : string := bytes [226; 153; 175].        (* U+266F *)
Definition sym_flat : string := bytes [226; 153; 173].         (* U+266D *)
Definition sym_dblsharp : string := bytes [240; 157; 132; 170]. (* U+1D12A *)
Definition sym_dblflat : string := bytes [240; 157; 132; 171].  (* U+1D12B *)
Definition sym_maj7 : string := bytes [226; 150; 179].         (* U+25B3 *)
Definition sym_hdim : string := bytes [195; 184].              (* U+00F8 *)

(** [fmt.Sprintf("%d", z)] *)
Definition fmt_d (z : Z) : string := pretty z.

Definition Accidental_String (a : Z) : string :=
  if a =? Natural then sym_natural
  else if a =? Sharp then sym_sharp
  else if a =? Flat then sym_flat
  else if a =? DblSharp then sym_dblsharp
  else if a =? DblFlat then sym_dblflat
  else ("?(" ++ fmt_d a ++ ")")%string.

Definition parseAccidental (s : string) : option Z :=
  if String.eqb s "n" || String.eqb s sym_natural then Some Natural
  else if String.eqb s "#" || String.eqb s sym_sharp then Some Sharp
  else if String.eqb s "b" || String.eqb s sym_flat then Some Flat
  else if String.eqb s "x" || String.eqb s sym_dblsharp then Some DblSharp
  else if String.eqb s "bb" || String.eqb s sym_dblflat then Some DblFlat
  else None.

(** [ParseNote]: [None] stands for the returned error (with [Note{}]). *)
Definition ParseNote (s : string) : option Note :=
  match s with
  | EmptyString => None
  | String c rest =>
      let n := Z.of_N (N_of_ascii c) in
      if negb (NoteName_IsValid n) then None
      else match rest with
           | EmptyString => Some (mkNote n Natural)
           | _ => match parseAccidental rest with
                  | Some a => Some (mkNote n a)
                  | None => None
                  end
           end
  end.

Definition MustParseNote (s : string) : result Note :=
  match ParseNote s with
  | None => Panic
  | Some p => if Note_IsValid p then Ok p else Panic
  end.

(** [string(rune(n))] for a byte [n]: the UTF-8 encoding of code point n. *)
Definition NoteName_String (n : Z) : string :=
  if n <? 128 then bytes [n]
  else bytes [Z.lor 192 (Z.shiftr n 6); Z.lor 128 (Z.land n 63)].

Definition Note_String (n : Note) : string :=
  let str := NoteName_String (note_N n) in
  if negb (note_Acc n =? Natural) then (str ++ Accidental_String (note_Acc n))%string
  else str.

(** *** The enharmonic tables and the second [init] *)

Definition offsetsByNote_strings : list (string * list string) :=
  [ ("Ax",  ["Abb"; "Ab"; "A"; "A#"; "Ax"; "B#"; "Bx"; "Cx"; "D#"]);
    ("A#",  ["Gb"; "Abb"; "Ab"; "A"; "A#"; "Ax"; "B#"; "Bx"; "Cx"]);
    ("A",   ["Gbb"; "Gb"; "Abb"; "Ab"; "A"; "A#"; "Ax"; "B#"; "Bx"]);
    ("Ab",  ["Fb"; "Gbb"; "Gb"; "Abb"; "Ab"; "A"; "A#"; "Ax"; "B#"]);
    ("Abb", ["Fbb"; "Fb"; "Gbb"; "Gb"; "Abb"; "Ab"; "A"; "A#"; "Ax"]);

    ("Bx",  ["Bbb"; "Bb"; "B"; "B#"; "Bx"; "Cx"; "D#"; "Dx"; "E#"]);
    ("B#",  ["Ab"; "Bbb"; "Bb"; "B"; "B#"; "Bx"; "Cx"; "D#"; "Dx"]);
    ("B",   ["Abb"; "Ab"; "Bbb"; "Bb"; "B"; "B#"; "Bx"; "Cx"; "D#"]);
    ("Bb",  ["Gb"; "Abb"; "Ab"; "Bbb"; "Bb"; "B"; "B#"; "Bx"; "Cx"]);
    ("Bbb", ["Gbb"; "Gb"; "Abb"; "Ab"; "Bbb"; "Bb"; "B"; "B#"; "Bx"]);

    ("Cx",  ["Cbb"; "Cb"; "C"; "C#"; "Cx"; "D#"; "Dx"; "E#"; "Ex"]);
    ("C#",  ["Bbb"; "Cbb"; "Cb"; "C"; "C#"; "Cx"; "D#"; "Dx"; "E#"]);
    ("C",   ["Ab"; "Bbb"; "Cbb"; "Cb"; "C"; "C#"; "Cx"; "D#"; "Dx"]);
    ("Cb",  ["Abb"; "Ab"; "Bbb"; "Cbb"; "Cb"; "C"; "C#"; "Cx"; "D#"]);
    ("Cbb", ["Gb"; "Abb"; "Ab"; "Bbb"; "Cbb"; "Cb"; "C"; "C#"; "Cx"]);

    ("Dx",  ["Dbb"; "Db"; "D"; "D#"; "Dx"; "E#"; "Ex"; "Fx"; "G#"]);
    ("D#",  ["Cb"; "Dbb"; "Db"; "D"; "D#"; "Dx"; "E#"; "Ex"; "Fx"]);
    ("D",   ["Cbb"; "Cb"; "Dbb"; "Db"; "D"; "D#"; "Dx"; "E#"; "Ex"]);
    ("Db",  ["Bbb"; "Cbb"; "Cb"; "Dbb"; "Db"; "D"; "D#"; "Dx"; "E#"]);
    ("Dbb", ["Ab"; "Bbb"; "Cbb"; "Cb"; "Dbb"; "Db"; "D"; "D#"; "Dx"]);

    ("Ex",  ["Ebb"; "Eb"; "E"; "E#"; "Ex"; "Fx"; "G#"; "Gx"; "A#"]);
    ("E#",  ["Db"; "Ebb"; "Eb"; "E"; "E#"; "Ex"; "Fx"; "G#"; "Gx"]);
    ("E",   ["Dbb"; "Db"; "Ebb"; "Eb"; "E"; "E#"; "Ex"; "Fx"; "G#"]);
    ("Eb",  ["Cb"; "Dbb"; "Db"; "Ebb"; "Eb"; "E"; "E#"; "Ex"; "Fx"]);
    ("Ebb", ["Cbb"; "Cb"; "Dbb"; "Db"; "Ebb"; "Eb"; "E"; "E#"; "Ex"]);

    ("Fx",  ["Fbb"; "Fb"; "F"; "F#"; "Fx"; "G#"; "Gx"; "A#"; "Ax"]);
    ("F#",  ["Ebb"; "Fbb"; "Fb"; "F"; "F#"; "Fx"; "G#"; "Gx"; "A#"]);
    ("F",   ["Db"; "Ebb"; "Fbb"; "Fb"; "F"; "F#"; "Fx"; "G#"; "Gx"]);
    ("Fb",  ["Dbb"; "Db"; "Ebb"; "Fbb"; "Fb"; "F"; "F#"; "Fx"; "G#"]);
    ("Fbb", ["Cb"; "Dbb"; "Db"; "Ebb"; "Fbb"; "Fb"; "F"; "F#"; "Fx"]);

    ("Gx",  ["Gbb"; "Gb"; "G"; "G#"; "Gx"; "A#"; "Ax"; "B#"; "Bx"]);
    ("G#",  ["Fb"; "Gbb"; "Gb"; "G"; "G#"; "Gx"; "A#"; "Ax"; "B#"]);
    ("G",   ["Fbb"; "Fb"; "Gbb"; "Gb"; "G"; "G#"; "Gx"; "A#"; "Ax"]);
    ("Gb",  ["Ebb"; "Fbb"; "Fb"; "Gbb"; "Gb"; "G"; "G#"; "Gx"; "A#"]);
    ("Gbb", ["Db"; "Ebb"; "Fbb"; "Fb"; "Gbb"; "Gb"; "G"; "G#"; "Gx"]) ]%string.

Definition majorScales_strings : list (string * list string) :=
  [ ("A", ["A"; "B"; "C#"; "D"; "E"; "F#"; "G#"]);
    ("B", ["B"; "C#"; "D#"; "E"; "F#"; "G#"; "A#"]);
    ("C", ["C"; "D"; "E"; "F"; "G"; "A"; "B"]);
    ("D", ["D"; "E"; "F#"; "G"; "A"; "B"; "C#"]);
    ("E", ["E"; "F#"; "G#"; "A"; "B"; "C#"; "D#"]);
    ("F", ["F"; "G"; "A"; "Bb"; "C"; "D"; "E"]);
    ("G", ["G"; "A"; "B"; "C"; "D"; "E"; "F#"]) ]%string.

Fixpoint rmapM {A B : Type} (f : A -> result B) (l : list A) : result (list B) :=
  match l with
  | [] => Ok []
  | a :: l' => do b <- f a; do bs <- rmapM f l'; Ok (b :: bs)
  end.

Fixpoint rfoldM {A S : Type} (f : S -> A -> result S) (l : list A) (s : S) : result S :=
  match l with
  | [] => Ok s
  | a :: l' => do s' <- f s a; rfoldM f l' s'
  end.

(** Pairs every element with its index, as [for i, v := range vs]. *)
Definition indexed {A : Type} (l : list A) : list (Z * A) :=
  combine (List.map Z.of_nat (seq 0 (List.length l))) l.

(** The values of [for acc := lo; acc < hi; acc++]. *)
Definition acc_range (lo hi : Z) : list Z :=
  List.map (fun i => lo + Z.of_nat i) (seq 0 (Z.to_nat (hi - lo))).

(** First half of [init]: the rows of [offsetsByNote], each entry checked
    against the cardinal it must have.  The keys of the literal are
    distinct, so the order in which the range visits them is immaterial. *)
Definition init_offsets_row (m : gmap Note (list Note)) (kv : string * list string)
  : result (gmap Note (list Note)) :=
  do n <- MustParseNote (fst kv);
  do ns <- rmapM (fun iv : Z * string =>
                    do p <- MustParseNote (snd iv);
                    do cp <- Note_Cardinal p;
                    do cn <- Note_Cardinal n;
                    if negb (cp =? posMod (wrap8 (wrap8 (cn + fst iv) - 4)) 12)
                    then Panic else Ok p)
                 (indexed (snd kv));
  Ok (<[n := ns]> m).

Definition init_offsetsByNote : result (gmap Note (list Note)) :=
  rfoldM init_offsets_row offsetsByNote_strings ∅.

(** Second half of [init]: a major scale for the natural root of every row
    of [majorScales_strings] and for each further accidental the loop
    [for acc := Natural; acc < DblSharp; acc++] reaches. *)
Definition init_scales_acc (offs : gmap Note (list Note)) (n : Note) (ns : list Note)
  (m : gmap Note (list Note)) (acc : Z) : result (gmap Note (list Note)) :=
  if Accidental_Offset acc =? 0 then Ok (<[n := ns]> m)
  else
    let accn := mkNote (note_N n) acc in
    do accns <- rmapM (fun pp => idx (offs !!! pp) (wrap8 (Accidental_Offset acc + 4))) ns;
    Ok (<[accn := accns]> m).

Definition init_scales_row (offs : gmap Note (list Note)) (lo hi : Z)
  (m : gmap Note (list Note)) (kv : string * list string)
  : result (gmap Note (list Note)) :=
  do n <- MustParseNote (fst kv);
  do ns <- rmapM MustParseNote (snd kv);
  rfoldM (init_scales_acc offs n ns) (acc_range lo hi) m.

Definition init_majorScales_range (offs : gmap Note (list Note)) (lo hi : Z)
  : result (gmap Note (list Note)) :=
  rfoldM (init_scales_row offs lo hi) majorScales_strings ∅.

Definition result_default {A : Type} (d : A) (r : result A) : A :=
  match r with Ok a => a | _ => d end.

Definition offsetsByNote : gmap Note (list Note) :=
  Eval vm_compute in result_default ∅ init_offsetsByNote.

Definition majorScales : gmap Note (list Note) :=
  Eval vm_compute in
    result_default ∅ (init_majorScales_range offsetsByNote Natural DblSharp).

(** *** Transpose and IntervalTo *)

(** The loop of [Transpose]; [o] is an [int8], so 32 rounds of +-4 reach
    the range [-4, 4]. *)
Fixpoint Transpose_loop (fuel : nat) (np : Note) (o : Z) : result Note :=
  if o =? 0 then Ok np
  else if (-4 <=? o) && (o <=? 4) then idx (offsetsByNote !!! np) (wrap8 (o + 4))
  else match fuel with
       | O => OutOfFuel
       | S fuel' =>
           if o <? 0 then
             do np' <- idx (offsetsByNote !!! np) 0;
             Transpose_loop fuel' np' (wrap8 (o + 4))
           else
             do np' <- idx (offsetsByNote !!! np) 4;
             Transpose_loop fuel' np' (wrap8 (o - 4))
       end.

Definition Note_Transpose (n : Note) (interval : Interval) : result Note :=
  do np <- idx (majorScales !!! n) (posMod (wrap8 (intv_Val interval - 1)) 7);
  Transpose_loop 32 np (intv_Offset interval).

Definition TransposeNote (root : Note) (intervals : list Interval) : result (list Note) :=
  rmapM (Note_Transpose root) intervals.

(** One round of [intv.Val--] with its wrap, and of [intv.Val++]. *)
Definition dec_Val (v : Z) : Z :=
  let v' := wrap8 (v - 1) in if v' <? 1 then wrap8 (v' + 7) else v'.
Definition inc_Val (v : Z) : Z :=
  let v' := wrap8 (v + 1) in if 7 <? v' then wrap8 (v' - 7) else v'.

Definition offs_of (dHalfSteps : Z) (intv : Interval) : result Z :=
  do h <- Interval_NumHalfSteps intv; Ok (wrap8 (dHalfSteps - h)).

Fixpoint IntervalTo_down (fuel : nat) (d : Z) (intv : Interval) (offs : Z)
  : result (Interval * Z) :=
  if offs <? -2 then
    match fuel with
    | O => OutOfFuel
    | S fuel' =>
        let intv' := mkInterval (dec_Val (intv_Val intv)) (intv_Offset intv) in
        do offs' <- offs_of d intv';
        IntervalTo_down fuel' d intv' offs'
    end
  else Ok (intv, offs).

Fixpoint IntervalTo_up (fuel : nat) (d : Z) (intv : Interval) (offs : Z)
  : result (Interval * Z) :=
  if 2 <? offs then
    match fuel with
    | O => OutOfFuel
    | S fuel' =>
        let intv' := mkInterval (inc_Val (intv_Val intv)) (intv_Offset intv) in
        do offs' <- offs_of d intv';
        IntervalTo_up fuel' d intv' offs'
    end
  else Ok (intv, offs).

Definition Note_IntervalTo (n other : Note) : result Interval :=
  let intv := mkInterval
                (posMod (wrap8 (wrap8 (wrapb (note_N other - 97))
                                - wrap8 (wrapb (note_N n - 97)))) 8) 0 in
  do co <- Note_Cardinal other;
  do cn <- Note_Cardinal n;
  let dHalfSteps := posMod (wrap8 (co - cn)) 12 in
  do offs <- offs_of dHalfSteps intv;
  do r1 <- IntervalTo_down 16 dHalfSteps intv offs;
  do r2 <- IntervalTo_up 16 dHalfSteps (fst r1) (snd r1);
  Ok (mkInterval (intv_Val (fst r2)) (snd r2)).

(* ================================================================= *)
(** ** chords.go: the chord data model *)

Record ChordTone : Type := mkTone { tone_Val : Z; tone_Acc : Z }.

Global Instance ChordTone_eq_dec : EqDecision ChordTone.
Proof. solve_decision. Defined.

Global Instance ChordTone_countable : Countable ChordTone.
Proof.
  refine (inj_countable' (fun t => (tone_Val t, tone_Acc t))
                         (fun p => mkTone (fst p) (snd p)) _).
  intros []; reflexivity.
Defined.

Definition tone_eqb (a b : ChordTone) : bool := bool_decide (a = b).

Definition ChordTone_IsValid (t : ChordTone) : bool :=
  (1 <=? tone_Val t) && (tone_Val t <=? 14) && Accidental_IsValid (tone_Acc t).

(** [TriadType] is an [int]; the constants are [iota] from [Maj3]. *)
Definition Maj3 : Z := 0.
Definition Aug3 : Z := 1.
Definition Min3 : Z := 2.
Definition Dim3 : Z := 3.
Definition HDim : Z := 4.
Definition FDim : Z := 5.
Definition Sus : Z := 6.

Definition TriadType_IsValid (t : Z) : bool := (Maj3 <=? t) && (t <=? Sus).

Definition TriadType_String (t : Z) : string :=
  if t =? Maj3 then "maj"
  else if t =? Aug3 then "+"
  else if t =? Min3 then "-"
  else if t =? Dim3 then "dim"
  else if t =? HDim then sym_hdim
  else if t =? FDim then "o"
  else if t =? Sus then "sus"
  else ("?(" ++ fmt_d t ++ ")")%string.

Definition fifthTone (t : Z) : ChordTone :=
  if (t =? HDim) || (t =? Dim3) || (t =? FDim) then mkTone 5 Flat
  else if t =? Aug3 then mkTone 5 Sharp
  else mkTone 5 Natural.

Definition standardIntervals : list (list Z) :=
  [ [0; 0; 0; 0; 0; 0; -1];     (* Maj3 *)
    [0; 0; 0; 0; 0; 0; -1];     (* Aug3 *)
    [0; 0; -1; 0; 0; 0; -1];    (* Min3 *)
    [0; 0; -1; 0; 0; 0; -2];    (* Dim3 *)
    [0; 0; -1; 0; 0; 0; -1];    (* HDim *)
    [0; 0; -1; 0; 0; 0; -2];    (* FDim *)
    [0; 0; 0; 0; 0; 0; -1] ].   (* Sus *)

Record Chord : Type := mkChord {
  Root : Note;
  Triad : Z;
  ExtraTones : list ChordTone;
  Bass : Note;
  canonical : bool
}.

Definition noNote : Note := mkNote 0 0.

Record triad : Type := mkTriad { typ : Z; susTone : ChordTone }.

(* ================================================================= *)
(** ** Validate *)

(** The error values of [Validate]; the texts are the [fmt.Errorf]
    formats of the source, the arguments are dropped. *)
Inductive ValidateError : Type :=
| ErrRootInvalid
| ErrBassInvalid
| ErrTriadInvalid
| ErrToneInvalid (e : ChordTone)
| ErrNotChordExtra (v : Z)
| ErrConflictingAccidentals (v a a' : Z)
| ErrDimModifiedSeventh (a : Z)
| ErrDimNonFlatFifth (a : Z)
| ErrAugNonSharpFifth (a : Z)
| ErrSusWithoutSuspension.

(** The loop over [ch.ExtraTones]; [t] is the local [map[int8]Accidental]. *)
Fixpoint Validate_tones (es : list ChordTone) (t : gmap Z Z)
  : ValidateError + gmap Z Z :=
  match es with
  | [] => inr t
  | e :: es' =>
      if negb (ChordTone_IsValid e) then inl (ErrToneInvalid e)
      else
        let v := tone_Val e in
        let v := if 7 <? v then wrap8 (v - 7) else v in
        if (v <? 2) || (v =? 3) || (7 <? v) then inl (ErrNotChordExtra (tone_Val e))
        else match t !! v with
             | Some a =>
                 if negb (a =? tone_Acc e)
                 then inl (ErrConflictingAccidentals (tone_Val e) a (tone_Acc e))
                 else Validate_tones es' t
             | None => Validate_tones es' (<[v := tone_Acc e]> t)
             end
  end.

Definition Validate_triad (tr : Z) (t : gmap Z Z) : option ValidateError :=
  match (if (tr =? FDim) || (tr =? Dim3)
         then match t !! 7 with
              | Some a => if negb (a =? Natural) then Some (ErrDimModifiedSeventh a) else None
              | None => None
              end
         else None) with
  | Some e => Some e
  | None =>
      if (tr =? FDim) || (tr =? HDim) || (tr =? Dim3) then
        match t !! 5 with
        | Some a => if negb (a =? Flat) then Some (ErrDimNonFlatFifth a) else None
        | None => None
        end
      else if tr =? Aug3 then
        match t !! 5 with
        | Some a => if negb (a =? Sharp) then Some (ErrAugNonSharpFifth a) else None
        | None => None
        end
      else if tr =? Sus then
        match t !! 2 with
        | Some _ => None
        | None => match t !! 4 with
                  | Some _ => None
                  | None => Some ErrSusWithoutSuspension
                  end
        end
      else None
  end.

(** [Validate] has a pointer receiver: it is modelled as a function from
    the chord the receiver points to, to that chord after the call and the
    returned error ([None] for [nil]). *)
Definition Validate (ch : Chord) : Chord * option ValidateError :=
  if negb (Note_IsValid (Root ch)) then (ch, Some ErrRootInvalid)
  else if negb (note_N (Bass ch) =? 0) && negb (Note_IsValid (Bass ch))
  then (ch, Some ErrBassInvalid)
  else if negb (TriadType_IsValid (Triad ch)) then (ch, Some ErrTriadInvalid)
  else match Validate_tones (ExtraTones ch) ∅ with
       | inl e => (ch, Some e)
       | inr t => (ch, Validate_triad (Triad ch) t)
       end.

(* ================================================================= *)
(** ** chordparse.y: the lexer *)

(** [for _, ch := range s]: the code points of a Go string.  A byte that
    does not start a well-formed UTF-8 sequence yields U+FFFD and is
    skipped alone, as the language defines. *)
Definition RuneError : Z := 65533.

Definition is_cont (b : Z) : bool := (128 <=? b) && (b <=? 191).

Fixpoint decode_bytes (l : list Z) : list Z :=
  match l with
  | [] => []
  | b0 :: r1 =>
      if b0 <? 128 then b0 :: decode_bytes r1
      else
        match r1 with
        | b1 :: r2 =>
            if (194 <=? b0) && (b0 <=? 223) then
              if is_cont b1
              then (Z.shiftl (Z.land b0 31) 6 + Z.land b1 63) :: decode_bytes r2
              else RuneError :: decode_bytes r1
            else
              match r2 with
              | b2 :: r3 =>
                  if (224 <=? b0) && (b0 <=? 239) then
                    let lo := if b0 =? 224 then 160 else 128 in
                    let hi := if b0 =? 237 then 159 else 191 in
                    if (lo <=? b1) && (b1 <=? hi) && is_cont b2
                    then (Z.shiftl (Z.land b0 15) 12 + Z.shiftl (Z.land b1 63) 6
                          + Z.land b2 63) :: decode_bytes r3
                    else RuneError :: decode_bytes r1
                  else
                    match r3 with
                    | b3 :: r4 =>
                        if (240 <=? b0) && (b0 <=? 244) then
                          let lo := if b0 =? 240 then 144 else 128 in
                          let hi := if b0 =? 244 then 143 else 191 in
                          if (lo <=? b1) && (b1 <=? hi) && is_cont b2 && is_cont b3
                          then (Z.shiftl (Z.land b0 7) 18 + Z.shiftl (Z.land b1 63) 12
                                + Z.shiftl (Z.land b2 63) 6 + Z.land b3 63)
                                 :: decode_bytes r4
                          else RuneError :: decode_bytes r1
                        else RuneError :: decode_bytes r1
                    | [] => RuneError :: decode_bytes r1
                    end
              | [] => RuneError :: decode_bytes r1
              end
        | [] => [RuneError]
        end
  end.

Definition decode_runes (s : string) : list Z :=
  decode_bytes (List.map (fun a => Z.of_N (N_of_ascii a)) (list_ascii_of_string s)).

(** The error stored by [Error]: the text is
    [chordErrorMessage(state, token)], of which the arguments are kept. *)
Record SyntaxError : Type := mkSyntaxError { err_state : Z; err_token : Z }.

(** [res] is either [nil] or [&chordVAL.ch], a pointer to the parser's
    variable [chordVAL]: [lx_res] records which, and the chord is read
    from [chordVAL] when [ParseChord] returns. *)
Record chordLex : Type := mkLex {
  lx_input : list Z;
  lx_pos : nat;
  lx_err : option SyntaxError;
  lx_res : bool
}.

Definition newLexer (s : string) : chordLex := mkLex (decode_runes s) 0 None false.

Definition lexEOF : Z := -1.

(** [next]: skips spaces from [pos] on and returns the rune after them. *)
Fixpoint next_from (rest : list Z) (pos : nat) : Z * nat :=
  match rest with
  | [] => (lexEOF, pos)
  | c :: rest' => if c =? 32 then next_from rest' (S pos) else (c, S pos)
  end.

Definition lex_next (l : chordLex) : Z * chordLex :=
  let r := next_from (drop (lx_pos l) (lx_input l)) (lx_pos l) in
  (fst r, mkLex (lx_input l) (snd r) (lx_err l) (lx_res l)).

Definition lex_peek (l : chordLex) (dist : nat) : Z :=
  match nth_error (lx_input l) (lx_pos l + dist) with
  | Some c => c
  | None => lexEOF
  end.

Definition lex_skip (l : chordLex) (dist : nat) : chordLex :=
  mkLex (lx_input l) (lx_pos l + dist) (lx_err l) (lx_res l).

Definition lex_Error (l : chordLex) (e : SyntaxError) : chordLex :=
  mkLex (lx_input l) (lx_pos l) (Some e) (lx_res l).

Definition _SYM_NOTE : Z := 57346.
Definition _SYM_TONE : Z := 57347.
Definition _SYM_MAJ7 : Z := 57348.
Definition _SYM_SUS : Z := 57349.
Definition _SYM_ACCIDENTAL : Z := 57350.
Definition _SYM_MIN : Z := 57351.
Definition _SYM_DIM : Z := 57352.
Definition _SYM_HDIM : Z := 57353.
Definition _SYM_FDIM : Z := 57354.
Definition _SYM_AUG : Z := 57355.

Record chordSymType : Type := mkSym {
  sym_yys : Z;
  sym_ch : Chord;
  sym_n : Note;
  sym_t : ChordTone;
  sym_acc : Z;
  sym_triad : triad;
  sym_tones : list ChordTone;
  sym_b : Z
}.

Definition zeroChord : Chord := mkChord noNote 0 [] noNote false.
Definition zeroSym : chordSymType :=
  mkSym 0 zeroChord noNote (mkTone 0 0) 0 (mkTriad 0 (mkTone 0 0)) [] 0.

Definition set_yys (v : chordSymType) (x : Z) : chordSymType :=
  mkSym x (sym_ch v) (sym_n v) (sym_t v) (sym_acc v) (sym_triad v) (sym_tones v) (sym_b v).
Definition set_ch (v : chordSymType) (x : Chord) : chordSymType :=
  mkSym (sym_yys v) x (sym_n v) (sym_t v) (sym_acc v) (sym_triad v) (sym_tones v) (sym_b v).
Definition set_n (v : chordSymType) (x : Note) : chordSymType :=
  mkSym (sym_yys v) (sym_ch v) x (sym_t v) (sym_acc v) (sym_triad v) (sym_tones v) (sym_b v).
Definition set_t (v : chordSymType) (x : ChordTone) : chordSymType :=
  mkSym (sym_yys v) (sym_ch v) (sym_n v) x (sym_acc v) (sym_triad v) (sym_tones v) (sym_b v).
Definition set_acc (v : chordSymType) (x : Z) : chordSymType :=
  mkSym (sym_yys v) (sym_ch v) (sym_n v) (sym_t v) x (sym_triad v) (sym_tones v) (sym_b v).
Definition set_triad (v : chordSymType) (x : triad) : chordSymType :=
  mkSym (sym_yys v) (sym_ch v) (sym_n v) (sym_t v) (sym_acc v) x (sym_tones v) (sym_b v).
Definition set_tones (v : chordSymType) (x : list ChordTone) : chordSymType :=
  mkSym (sym_yys v) (sym_ch v) (sym_n v) (sym_t v) (sym_acc v) (sym_triad v) x (sym_b v).
Definition set_b (v : chordSymType) (x : Z) : chordSymType :=
  mkSym (sym_yys v) (sym_ch v) (sym_n v) (sym_t v) (sym_acc v) (sym_triad v) (sym_tones v) x.

(** [Lex]: the token code, the lexer after the call and [lval] after it.
    A [case] whose test fails leaves the [switch]; the rune itself is
    then the token. *)
Definition Lex (l : chordLex) (lval : chordSymType) : Z * chordLex * chordSymType :=
  let '(c, l) := lex_next l in
  if c =? lexEOF then (0, l, lval)
  else if (65 <=? c) && (c <=? 71) then (_SYM_NOTE, l, set_b lval (wrap8 c))
  else if c =? 115 (* s *) then
    if (lex_peek l 0 =? 117) && (lex_peek l 1 =? 115)
    then (_SYM_SUS, lex_skip l 2, lval) else (c, l, lval)
  else if (c =? 35) || (c =? 9839) (* # or U+266F *) then
    (_SYM_ACCIDENTAL, l, set_acc lval Sharp)
  else if (c =? 120) || (c =? 119082) (* x or U+1D12A *) then
    (_SYM_ACCIDENTAL, l, set_acc lval DblSharp)
  else if c =? 9837 (* U+266D *) then (_SYM_ACCIDENTAL, l, set_acc lval Flat)
  else if c =? 119083 (* U+1D12B *) then (_SYM_ACCIDENTAL, l, set_acc lval DblFlat)
  else if c =? 98 (* b *) then
    if lex_peek l 0 =? 98
    then (_SYM_ACCIDENTAL, lex_skip l 1, set_acc lval DblFlat)
    else (_SYM_ACCIDENTAL, l, set_acc lval Flat)
  else if (c =? 110) || (c =? 9838) (* n or U+266E *) then
    (_SYM_ACCIDENTAL, l, set_acc lval Natural)
  else if c =? 97 (* a *) then
    if (lex_peek l 0 =? 117) && (lex_peek l 1 =? 103)
    then (_SYM_AUG, lex_skip l 2, lval) else (c, l, lval)
  else if c =? 109 (* m *) then
    if (lex_peek l 0 =? 97) && (lex_peek l 1 =? 106)
    then (_SYM_MAJ7, lex_skip l 2, lval)
    else if (lex_peek l 0 =? 105) && (lex_peek l 1 =? 110)
    then (_SYM_MIN, lex_skip l 2, lval)
    else (_SYM_MIN, l, lval)
  else if c =? 100 (* d *) then
    if (lex_peek l 0 =? 105) && (lex_peek l 1 =? 109)
    then (_SYM_DIM, lex_skip l 2, lval) else (c, l, lval)
  else if c =? 248 (* U+00F8 *) then (_SYM_HDIM, l, lval)
  else if c =? 111 (* o *) then (_SYM_FDIM, l, lval)
  else if (c =? 9651) || (c =? 8710) (* U+25B3 or U+2206 *) then (_SYM_MAJ7, l, lval)
  else if c =? 49 (* 1 *) then
    if lex_peek l 0 =? 49 then (_SYM_TONE, lex_skip l 1, set_b lval 11)
    else if lex_peek l 0 =? 51 then (_SYM_TONE, lex_skip l 1, set_b lval 13)
    else (c, l, lval)
  else if c =? 57 (* 9 *) then (_SYM_TONE, l, set_b lval (wrap8 (wrap8 c - 48)))
  else (c, l, lval).

(* ================================================================= *)
(** ** The generated parser: tables *)

Definition chordEofCode : Z := 1.
Definition chordErrCode : Z := 2.
Definition chordInitialStackSize : nat := 16.
Definition chordPrivate : Z := 57344.
Definition chordLast : Z := 90.
Definition chordFlag : Z := -1000.

Definition chordExca : list Z := [ -1; 1; 1; -1; -2; 0 ].

Definition chordAct : list Z :=
  [ 6; 49; 50; 48; 5; 28; 4; 18; 30; 34;
    35; 39; 22; 8; 21; 27; 11; 13; 14; 15;
    16; 9; 7; 12; 17; 23; 24; 25; 26; 22;
    37; 19; 38; 20; 44; 10; 47; 45; 1; 36;
    31; 32; 23; 24; 25; 26; 46; 51; 52; 53;
    22; 3; 40; 27; 2; 0; 22; 29; 0; 27;
    33; 31; 32; 23; 24; 25; 26; 31; 32; 23;
    24; 25; 26; 22; 42; 0; 0; 0; 0; 0;
    0; 0; 0; 0; 41; 43; 23; 24; 25; 26 ].

Definition chordPact : list Z :=
  [ 2; -1000; -10; 7; -3; 2; -1000; 51; 45; 24;
    51; -1000; -1000; -1000; -1000; -1000; -1000; -1000; -1000; -1000;
    68; 66; -1000; -1000; -1000; -1000; -1000; -1000; -1000; -1000;
    -1000; -1000; -1000; 51; -1000; -1000; 51; 31; -12; -1000;
    -1000; -1000; -17; -1000; -1000; -1000; 51; 51; 51; -1000;
    -1000; -1000; -1000; -1000 ].

Definition chordPgo : list Z := [ 0; 54; 38; 51; 35; 33; 21; 7; 0; 31 ].

Definition chordR1 : list Z :=
  [ 0; 2; 2; 1; 1; 1; 1; 1; 1; 1;
    1; 1; 3; 3; 6; 6; 6; 6; 6; 6;
    6; 6; 7; 7; 7; 7; 8; 8; 4; 4;
    9; 9; 9; 9; 9; 5; 5; 5 ].

Definition chordR2 : list Z :=
  [ 0; 1; 3; 2; 3; 4; 3; 3; 4; 5;
    5; 5; 1; 2; 1; 1; 1; 1; 1; 1;
    1; 1; 2; 3; 2; 3; 0; 2; 1; 2;
    1; 1; 1; 1; 1; 1; 1; 1 ].

Definition chordChk : list Z :=
  [ -1000; -2; -1; -3; 4; 14; -8; 15; 6; -6;
    -4; 9; 16; 10; 11; 12; 13; 17; -7; -9;
    -5; 7; 5; 18; 19; 20; 21; 8; 8; -3;
    -8; 16; 17; 15; -8; -8; 15; 6; 8; -8;
    -9; 18; 8; 19; -8; -8; 15; 5; 15; 18;
    19; -8; -8; -8 ].

Definition chordDef : list Z :=
  [ 0; -2; 1; 26; 12; 0; 3; 26; 26; 26;
    26; 14; 15; 16; 17; 18; 19; 20; 21; 28;
    0; 0; 30; 31; 32; 33; 34; 37; 13; 2;
    4; 35; 36; 26; 7; 6; 26; 0; 37; 27;
    29; 22; 0; 24; 5; 8; 26; 26; 26; 23;
    25; 9; 10; 11 ].

Definition chordTok1 : list Z :=
  [ 1; 3; 3; 3; 3; 3; 3; 3; 3; 3;
    3; 3; 3; 3; 3; 3; 3; 3; 3; 3;
    3; 3; 3; 3; 3; 3; 3; 3; 3; 3;
    3; 3; 3; 3; 3; 3; 3; 3; 3; 3;
    3; 3; 3; 17; 3; 16; 3; 14; 3; 3;
    18; 3; 19; 20; 21; 15 ].

Definition chordTok2 : list Z := [ 2; 3; 4; 5; 6; 7; 8; 9; 10; 11; 12; 13 ].

Definition chordTok3 : list Z := [ 0 ].

Definition zlen {A : Type} (l : list A) : Z := Z.of_nat (List.length l).

(** The loop over [chordTok3] in [chordlex1]; [token] keeps the last
    entry read when no pair matches. *)
Fixpoint tok3_search (l : list Z) (char token : Z) : result Z :=
  match l with
  | [] => Ok token
  | t0 :: rest =>
      if t0 =? char then
        match rest with
        | t1 :: _ => Ok t1
        | [] => Panic
        end
      else match rest with
           | _ :: rest' => tok3_search rest' char t0
           | [] => Ok t0
           end
  end.

Definition chordlex1 (l : chordLex) (lval : chordSymType)
  : result (Z * Z * chordLex * chordSymType) :=
  let '(char, l, lval) := Lex l lval in
  do token <-
    (if char <=? 0 then idx chordTok1 0
     else if char <? zlen chordTok1 then idx chordTok1 char
     else if (chordPrivate <=? char) && (char <? chordPrivate + zlen chordTok2)
     then idx chordTok2 (char - chordPrivate)
     else tok3_search chordTok3 char 0);
  do token <- (if token =? 0 then idx chordTok2 1 else Ok token);
  Ok (char, token, l, lval).

(* ================================================================= *)
(** ** The generated parser: semantic actions *)

(** [chordDollar = chordS[chordpt-k : chordpt+1]] and [chordDollar[i]]. *)
Definition slice_ok (pt k : Z) : result unit :=
  if pt - k <? 0 then Panic else Ok tt.

Definition dollar (S : list chordSymType) (pt k i : Z) : result chordSymType :=
  idx S (pt - k + i).

Definition set_res (l : chordLex) : chordLex :=
  mkLex (lx_input l) (lx_pos l) (lx_err l) true.

(** [Chord{Root: r, Triad: ty, ExtraTones: ts}] *)
Definition chordOf (r : Note) (ty : Z) (ts : list ChordTone) : Chord :=
  mkChord r ty ts noNote false.

(** The two arms [if $2.susTone.Val != 0 { ... append(.., $2.susTone) }
    else { ... }] shared by the productions that carry a triad. *)
Definition triadChord (r : Note) (tr : triad) (ts : list ChordTone) : Chord :=
  if negb (tone_Val (susTone tr) =? 0)
  then chordOf r (typ tr) (ts ++ [susTone tr])
  else chordOf r (typ tr) ts.

Definition action (nt : Z) (S : list chordSymType) (pt : Z)
  (VAL : chordSymType) (l : chordLex) : result (chordSymType * chordLex) :=
  let D k i := dollar S pt k i in
  match nt with
  | 1 =>  (* fullChord : chord *)
      do _ <- slice_ok pt 1; do d1 <- D 1 1;
      Ok (set_ch VAL (sym_ch d1), set_res l)
  | 2 =>  (* fullChord : chord '/' note *)
      do _ <- slice_ok pt 3; do d1 <- D 3 1; do d3 <- D 3 3;
      let c := sym_ch d1 in
      Ok (set_ch VAL (mkChord (Root c) (Triad c) (ExtraTones c) (sym_n d3) (canonical c)),
          set_res l)
  | 3 =>  (* chord : note extras *)
      do _ <- slice_ok pt 2; do d1 <- D 2 1; do d2 <- D 2 2;
      Ok (set_ch VAL (chordOf (sym_n d1) Maj3 (sym_tones d2)), l)
  | 4 =>  (* chord : note '7' extras *)
      do _ <- slice_ok pt 3; do d1 <- D 3 1; do d3 <- D 3 3;
      Ok (set_ch VAL (chordOf (sym_n d1) Maj3 (sym_tones d3 ++ [mkTone 7 Natural])), l)
  | 5 =>  (* chord : note MAJ7 '7' extras *)
      do _ <- slice_ok pt 4; do d1 <- D 4 1; do d4 <- D 4 4;
      Ok (set_ch VAL (chordOf (sym_n d1) Maj3 (sym_tones d4 ++ [mkTone 7 Sharp])), l)
  | 6 =>  (* chord : note triad extras *)
      do _ <- slice_ok pt 3; do d1 <- D 3 1; do d2 <- D 3 2; do d3 <- D 3 3;
      Ok (set_ch VAL (triadChord (sym_n d1) (sym_triad d2) (sym_tones d3)), l)
  | 7 =>  (* chord : note MAJ7 extras *)
      do _ <- slice_ok pt 3; do d1 <- D 3 1; do d3 <- D 3 3;
      let hasHighTone := existsb (fun tn => 7 <? tone_Val tn) (sym_tones d3) in
      if hasHighTone
      then Ok (set_ch VAL (chordOf (sym_n d1) Maj3 (sym_tones d3 ++ [mkTone 7 Sharp])), l)
      else Ok (set_ch VAL (chordOf (sym_n d1) Maj3 (sym_tones d3)), l)
  | 8 =>  (* chord : note triad '7' extras *)
      do _ <- slice_ok pt 4; do d1 <- D 4 1; do d2 <- D 4 2; do d4 <- D 4 4;
      Ok (set_ch VAL (triadChord (sym_n d1) (sym_triad d2)
                        (sym_tones d4 ++ [mkTone 7 Natural])), l)
  | 9 =>  (* chord : note triad MAJ7 '7' extras *)
      do _ <- slice_ok pt 5; do d1 <- D 5 1; do d2 <- D 5 2; do d5 <- D 5 5;
      Ok (set_ch VAL (triadChord (sym_n d1) (sym_triad d2)
                        (sym_tones d5 ++ [mkTone 7 Sharp])), l)
  | 10 => (* chord : note triad MAJ7 TONE extras *)
      do _ <- slice_ok pt 5; do d1 <- D 5 1; do d2 <- D 5 2; do d4 <- D 5 4;
      do d5 <- D 5 5;
      Ok (set_ch VAL (triadChord (sym_n d1) (sym_triad d2)
                        (sym_tones d5 ++ [mkTone 7 Sharp; mkTone (sym_b d4) Natural])), l)
  | 11 => (* chord : note triad ACCIDENTAL '7' extras *)
      do _ <- slice_ok pt 5; do d1 <- D 5 1; do d2 <- D 5 2; do d3 <- D 5 3;
      do d5 <- D 5 5;
      Ok (set_ch VAL (triadChord (sym_n d1) (sym_triad d2)
                        (sym_tones d5 ++ [mkTone 7 (sym_acc d3)])), l)
  | 12 => (* note : NOTE *)
      do _ <- slice_ok pt 1; do d1 <- D 1 1;
      Ok (set_n VAL (mkNote (wrapb (sym_b d1)) Natural), l)
  | 13 => (* note : NOTE ACCIDENTAL *)
      do _ <- slice_ok pt 2; do d1 <- D 2 1; do d2 <- D 2 2;
      Ok (set_n VAL (mkNote (wrapb (sym_b d1)) (sym_acc d2)), l)
  | 14 => do _ <- slice_ok pt 1; Ok (set_triad VAL (mkTriad Min3 (mkTone 0 0)), l)
  | 15 => do _ <- slice_ok pt 1; Ok (set_triad VAL (mkTriad Min3 (mkTone 0 0)), l)
  | 16 => do _ <- slice_ok pt 1; Ok (set_triad VAL (mkTriad Dim3 (mkTone 0 0)), l)
  | 17 => do _ <- slice_ok pt 1; Ok (set_triad VAL (mkTriad HDim (mkTone 0 0)), l)
  | 18 => do _ <- slice_ok pt 1; Ok (set_triad VAL (mkTriad FDim (mkTone 0 0)), l)
  | 19 => do _ <- slice_ok pt 1; Ok (set_triad VAL (mkTriad Aug3 (mkTone 0 0)), l)
  | 20 => do _ <- slice_ok pt 1; Ok (set_triad VAL (mkTriad Aug3 (mkTone 0 0)), l)
  | 21 => (* triad : sus *)
      do _ <- slice_ok pt 1; do d1 <- D 1 1;
      Ok (set_triad VAL (sym_triad d1), l)
  | 22 => (* sus : SUS '2' *)
      do _ <- slice_ok pt 2; Ok (set_triad VAL (mkTriad Sus (mkTone 2 Natural)), l)
  | 23 => (* sus : SUS ACCIDENTAL '2' *)
      do _ <- slice_ok pt 3; do d2 <- D 3 2;
      Ok (set_triad VAL (mkTriad Sus (mkTone 2 (sym_acc d2))), l)
  | 24 => (* sus : SUS '4' *)
      do _ <- slice_ok pt 2; Ok (set_triad VAL (mkTriad Sus (mkTone 4 Natural)), l)
  | 25 => (* sus : SUS ACCIDENTAL '4' *)
      do _ <- slice_ok pt 3; do d2 <- D 3 2;
      Ok (set_triad VAL (mkTriad Sus (mkTone 4 (sym_acc d2))), l)
  | 26 => (* extras : empty *)
      do _ <- slice_ok pt 0; Ok (set_tones VAL [], l)
  | 27 => (* extras : tone extras *)
      do _ <- slice_ok pt 2; do d1 <- D 2 1; do d2 <- D 2 2;
      Ok (set_tones VAL (sym_t d1 :: sym_tones d2), l)
  | 28 => (* tone : toneVal *)
      do _ <- slice_ok pt 1; do d1 <- D 1 1;
      Ok (set_t VAL (mkTone (sym_b d1) Natural), l)
  | 29 => (* tone : toneMod toneVal *)
      do _ <- slice_ok pt 2; do d1 <- D 2 1; do d2 <- D 2 2;
      Ok (set_t VAL (mkTone (sym_b d2) (sym_acc d1)), l)
  | 30 => (* toneVal : TONE *)
      do _ <- slice_ok pt 1; do d1 <- D 1 1; Ok (set_b VAL (sym_b d1), l)
  | 31 => do _ <- slice_ok pt 1; Ok (set_b VAL 2, l)
  | 32 => do _ <- slice_ok pt 1; Ok (set_b VAL 4, l)
  | 33 => do _ <- slice_ok pt 1; Ok (set_b VAL 5, l)
  | 34 => do _ <- slice_ok pt 1; Ok (set_b VAL 6, l)
  | 35 => do _ <- slice_ok pt 1; Ok (set_acc VAL Flat, l)
  | 36 => do _ <- slice_ok pt 1; Ok (set_acc VAL Sharp, l)
  | 37 => (* toneMod : ACCIDENTAL *)
      do _ <- slice_ok pt 1; do d1 <- D 1 1; Ok (set_acc VAL (sym_acc d1), l)
  | _ => Ok (VAL, l)
  end.

(* ================================================================= *)
(** ** The generated parser: [Parse] *)

Record pstate : Type := mkP {
  chordS : list chordSymType;
  chordp : Z;
  chordVAL : chordSymType;
  chordstate : Z;
  p_char : Z;
  chordtoken : Z;
  p_lval : chordSymType;
  Errflag : Z;
  p_lex : chordLex
}.

(** The labels of [Parse] that are targets of a [goto]. *)
Inductive label : Type := chordstack | chordnewstate | chorddefault.

(** [if p >= len(chordS) { nyys := make(.., len(chordS)*2); copy .. }] *)
Definition grow (S : list chordSymType) (p : Z) : list chordSymType :=
  if zlen S <=? p then (S ++ repeat zeroSym (List.length S))%list else S.

Definition store (S : list chordSymType) (p : Z) (v : chordSymType)
  : result (list chordSymType) :=
  if (p <? 0) || (zlen S <=? p) then Panic else Ok (<[Z.to_nat p := v]> S).

(** Reads the lookahead when there is none. *)
Definition fill_lookahead (st : pstate) : result pstate :=
  if p_char st <? 0 then
    do r <- chordlex1 (p_lex st) (p_lval st);
    let '(char, token, l, lval) := r in
    Ok (mkP (chordS st) (chordp st) (chordVAL st) (chordstate st)
            char token lval (Errflag st) l)
  else Ok st.

(** First loop over the exception table: the entry [-1, state]. *)
Fixpoint exca_find_state (fuel : nat) (xi : Z) (state : Z) : result Z :=
  match fuel with
  | O => OutOfFuel
  | S fuel' =>
      do e0 <- idx chordExca xi;
      do e1 <- idx chordExca (xi + 1);
      if (e0 =? -1) && (e1 =? state) then Ok xi
      else exca_find_state fuel' (xi + 2) state
  end.

(** Second loop: the entry for the token, or the closing negative one. *)
Fixpoint exca_find_token (fuel : nat) (xi : Z) (token : Z) : result Z :=
  match fuel with
  | O => OutOfFuel
  | S fuel' =>
      do e0 <- idx chordExca xi;
      if (e0 <? 0) || (e0 =? token) then Ok xi
      else exca_find_token fuel' (xi + 2) token
  end.

(** [for chordp >= 0 { ... chordp-- }] of the error recovery: the state,
    if any, in which "error" can be shifted. *)
Fixpoint error_pop (fuel : nat) (S : list chordSymType) (p : Z) (state : Z)
  : result (option (Z * Z) * Z) :=
  if p <? 0 then Ok (None, state)
  else match fuel with
       | O => OutOfFuel
       | S fuel' =>
           do e <- idx S p;
           do pa <- idx chordPact (sym_yys e);
           let n := pa + chordErrCode in
           if (0 <=? n) && (n <? chordLast) then
             do state' <- idx chordAct n;
             do chk <- idx chordChk state';
             if chk =? chordErrCode then Ok (Some (p, state'), state')
             else error_pop fuel' S (p - 1) state'
           else error_pop fuel' S (p - 1) state
       end.

(** The reduction by production [n] at the end of [chorddefault]. *)
Definition reduce (st : pstate) (n : Z) : result pstate :=
  let chordnt := n in
  let chordpt := chordp st in
  do r2 <- idx chordR2 n;
  let p := chordp st - r2 in
  let S := grow (chordS st) (p + 1) in
  do VAL <- idx S (p + 1);
  do n1 <- idx chordR1 n;
  do g <- idx chordPgo n1;
  do e <- idx S p;
  let j := g + sym_yys e + 1 in
  do state <-
    (if chordLast <=? j then idx chordAct g
     else
       do s <- idx chordAct j;
       do chk <- idx chordChk s;
       if negb (chk =? - n1) then idx chordAct g else Ok s);
  do r <- action chordnt S chordpt VAL (p_lex st);
  Ok (mkP S p (fst r) state (p_char st) (chordtoken st) (p_lval st) (Errflag st) (snd r)).

(** The body of [Parse] from a label on: the return value (0 accept,
    1 abort) and the state at the [return]. *)
Fixpoint Parse_from (fuel : nat) (pc : label) (st : pstate) : result (Z * pstate) :=
  match fuel with
  | O => OutOfFuel
  | S fuel' =>
      match pc with
      | chordstack =>
          let p := chordp st + 1 in
          let S := grow (chordS st) p in
          do S <- store S p (set_yys (chordVAL st) (chordstate st));
          Parse_from fuel' chordnewstate
            (mkP S p (chordVAL st) (chordstate st) (p_char st) (chordtoken st)
                 (p_lval st) (Errflag st) (p_lex st))
      | chordnewstate =>
          do n <- idx chordPact (chordstate st);
          if n <=? chordFlag then Parse_from fuel' chorddefault st
          else
            do st <- fill_lookahead st;
            let n := n + chordtoken st in
            if (n <? 0) || (chordLast <=? n) then Parse_from fuel' chorddefault st
            else
              do n <- idx chordAct n;
              do chk <- idx chordChk n;
              if chk =? chordtoken st then
                Parse_from fuel' chordstack
                  (mkP (chordS st) (chordp st) (p_lval st) n (-1) (-1) (p_lval st)
                       (if 0 <? Errflag st then Errflag st - 1 else Errflag st)
                       (p_lex st))
              else Parse_from fuel' chorddefault st
      | chorddefault =>
          do n <- idx chordDef (chordstate st);
          do r <-
            (if n =? -2 then
               do st <- fill_lookahead st;
               do xi <- exca_find_state (List.length chordExca) 0 (chordstate st);
               do xi <- exca_find_token (List.length chordExca) (xi + 2) (chordtoken st);
               do n <- idx chordExca (xi + 1);
               Ok (n, st, n <? 0)
             else Ok (n, st, false));
          let '(n, st, accept) := r in
          if accept then Ok (0, st)                              (* ret0 *)
          else if (n =? 0) && (0 <=? Errflag st) && (Errflag st <=? 2) then
            (* case 0 reports the error and falls through to case 1, 2 *)
            let l := if Errflag st =? 0
                     then lex_Error (p_lex st)
                            (mkSyntaxError (chordstate st) (chordtoken st))
                     else p_lex st in
            do r <- error_pop (Z.to_nat (chordp st + 1)) (chordS st) (chordp st)
                              (chordstate st);
            match fst r with
            | Some (p, state) =>
                Parse_from fuel' chordstack
                  (mkP (chordS st) p (chordVAL st) state (p_char st) (chordtoken st)
                       (p_lval st) 3 l)
            | None =>                                             (* ret1 *)
                Ok (1, mkP (chordS st) (-1) (chordVAL st) (snd r) (p_char st)
                           (chordtoken st) (p_lval st) 3 l)
            end
          else if (n =? 0) && (Errflag st =? 3) then
            if chordtoken st =? chordEofCode then Ok (1, st)     (* ret1 *)
            else Parse_from fuel' chordnewstate
                   (mkP (chordS st) (chordp st) (chordVAL st) (chordstate st) (-1) (-1)
                        (p_lval st) (Errflag st) (p_lex st))
          else
            do st <- reduce st n;
            Parse_from fuel' chordstack st
      end
  end.

(** [chordParse(lx)]: a new parser, its stack of [chordInitialStackSize]
    zero values, state 0, no lookahead. *)
Definition chordParse (fuel : nat) (lx : chordLex) : result (Z * pstate) :=
  Parse_from fuel chordstack
    (mkP (repeat zeroSym chordInitialStackSize) (-1) zeroSym 0 (-1) (-1) zeroSym 0 lx).

(** [ParseChord]: the pair [lx.res, lx.err] after the parse. *)
Definition ParseChord_fuel (fuel : nat) (s : string)
  : result (option Chord * option SyntaxError) :=
  do r <- chordParse fuel (newLexer s);
  let st := snd r in
  Ok (if lx_res (p_lex st) then Some (sym_ch (chordVAL st)) else None,
      lx_err (p_lex st)).

(** Every rune costs a bounded number of parser steps; the bound below is
    generous, and a parse that exhausts it shows as [OutOfFuel]. *)
Definition ParseChord (s : string) : result (option Chord * option SyntaxError) :=
  ParseChord_fuel (64 * (String.length s + 2)) s.

(* ================================================================= *)
(** ** Canonicalize *)

(** What Go leaves open in [Canonicalize]: the order in which each
    [range] over a map visits the entries, and which of the sorted
    arrangements the unstable [sort.Sort] produces.  [ord_keys site ks]
    is the order in which the range statement number [site] visits the
    keys [ks]; [ord_set k l] the order of the range over the set built
    for degree [k]; [ord_sort l] the arrangement of equal-ranked tones
    the sort starts from. *)
Record Order : Type := mkOrder {
  ord_keys : nat -> list Z -> list Z;
  ord_set : Z -> list ChordTone -> list ChordTone;
  ord_sort : list ChordTone -> list ChordTone
}.

Definition Order_ok (o : Order) : Prop :=
  (forall site ks, Permutation (ord_keys o site ks) ks) /\
  (forall k l, Permutation (ord_set o k l) l) /\
  (forall l, Permutation (ord_sort o l) l).

Definition Order_id : Order := mkOrder (fun _ ks => ks) (fun _ l => l) (fun l => l).

Definition removeTone (tns : list ChordTone) (toRemove : ChordTone) : list ChordTone :=
  List.filter (fun tn => negb (tone_eqb tn toRemove)) tns.

Definition containsTone (tns : list ChordTone) (search : ChordTone) : bool :=
  existsb (fun tn => tone_eqb tn search) tns.

(** [t[k] = removeTone(t[k], x)] on the local [map[int8][]ChordTone]. *)
Definition t_remove (t : gmap Z (list ChordTone)) (k : Z) (x : ChordTone)
  : gmap Z (list ChordTone) :=
  <[k := removeTone (t !!! k) x]> t.

Definition t_len (t : gmap Z (list ChordTone)) (k : Z) : Z := zlen (t !!! k).

(** The local variables of [Canonicalize] together with [ch.Triad]. *)
Record canon : Type := mkCanon {
  c_triad : Z;
  c_t : gmap Z (list ChordTone);
  c_hasSeventh : bool;
  c_hasNaturalSeventh : bool;
  c_impliedSeventh : Z
}.

Definition with_t (st : canon) (t : gmap Z (list ChordTone)) : canon :=
  mkCanon (c_triad st) t (c_hasSeventh st) (c_hasNaturalSeventh st) (c_impliedSeventh st).

Definition with_triad (st : canon) (tr : Z) : canon :=
  mkCanon tr (c_t st) (c_hasSeventh st) (c_hasNaturalSeventh st) (c_impliedSeventh st).

(** One round of [for _, e := range ch.ExtraTones]. *)
Definition collect_one (st : canon) (e : ChordTone) : canon :=
  if ((tone_Val e =? 7) && (tone_Acc e =? DblSharp))
     || ((tone_Val e =? 2) && (tone_Acc e =? DblFlat)) then st
  else if (tone_Val e =? 9) && (tone_Acc e =? DblFlat) then
    mkCanon (c_triad st) (c_t st) (c_hasSeventh st) (c_hasNaturalSeventh st)
            (c_impliedSeventh st + 1)
  else
    let t' := <[tone_Val e := (c_t st !!! tone_Val e) ++ [e]]> (c_t st) in
    if 7 <? tone_Val e then
      mkCanon (c_triad st) t' (c_hasSeventh st) (c_hasNaturalSeventh st)
              (c_impliedSeventh st + 1)
    else if tone_Val e =? 7 then
      mkCanon (c_triad st) t' true
              (if tone_Acc e =? Natural then true else c_hasNaturalSeventh st)
              (c_impliedSeventh st)
    else with_t st t'.

Definition collect (ch : Chord) : canon :=
  fold_left collect_one (ExtraTones ch)
    (mkCanon (Triad ch) ∅ false false
             (if (Triad ch =? FDim) || (Triad ch =? HDim) then 1 else 0)).

(** remove any redundant 5th tones *)
Definition step_fifth (st : canon) : canon :=
  let tr := c_triad st in
  if (tr =? Maj3) || (tr =? Min3) || (tr =? Sus)
  then with_t st (t_remove (c_t st) 5 (mkTone 5 Natural))
  else if tr =? Aug3 then with_t st (t_remove (c_t st) 5 (mkTone 5 Sharp))
  else if (tr =? Dim3) || (tr =? HDim) || (tr =? FDim)
  then with_t st (t_remove (c_t st) 5 (mkTone 5 Flat))
  else st.

(** convert minor chord w/ b5 to some kind of diminished *)
Definition step_minor (st : canon) : canon :=
  if c_triad st =? Min3 then
    let convert := existsb (fun tn => tone_Acc tn =? Flat) (c_t st !!! 5) in
    if convert then
      let st := with_t st (t_remove (c_t st) 5 (mkTone 5 Flat)) in
      if (0 <? c_impliedSeventh st) || c_hasSeventh st
      then with_triad st HDim
      else with_triad st Dim3
    else st
  else st.

(** similarly, convert major chord w/ #5 to augmented *)
Definition step_major (st : canon) : canon :=
  if c_triad st =? Maj3 then
    let convert := existsb (fun tn => tone_Acc tn =? Sharp) (c_t st !!! 5) in
    if convert then
      with_triad (with_t st (t_remove (c_t st) 5 (mkTone 5 Sharp))) Aug3
    else st
  else st.

(** canonicalize "dim7" -> "o" *)
Definition step_dim7 (st : canon) : canon :=
  if (c_triad st =? Dim3)
     && (c_hasNaturalSeventh st || ((0 <? c_impliedSeventh st) && negb (c_hasSeventh st)))
  then mkCanon FDim (c_t st) (c_hasSeventh st) (c_hasNaturalSeventh st)
               (c_impliedSeventh st + 1)
  else st.

(** half diminished w/ flat 7th is the same as fully diminished *)
Definition step_hdim (st : canon) : canon :=
  if (c_triad st =? HDim) && c_hasSeventh st then
    let onlyFlatSeventh := forallb (fun s => tone_Acc s =? Flat) (c_t st !!! 7) in
    if onlyFlatSeventh then
      with_triad
        (with_t st (alter (List.map (fun s => mkTone (tone_Val s) Natural)) 7 (c_t st)))
        FDim
    else st
  else st.

(** if "7" is just implied, make it explicit *)
Definition step_implied (st : canon) : canon :=
  if (0 <? c_impliedSeventh st) && negb (c_hasSeventh st) then
    mkCanon (c_triad st) (<[7 := (c_t st !!! 7) ++ [mkTone 7 Natural]]> (c_t st))
            true (c_hasNaturalSeventh st) (c_impliedSeventh st)
  else st.

(** tones enharmonic to the third *)
Definition step_thirds (st : canon) : canon :=
  let tr := c_triad st in
  let t := c_t st in
  if (tr =? Maj3) || (tr =? Aug3) then
    let t := t_remove t 4 (mkTone 4 Flat) in
    let t := t_remove t 11 (mkTone 11 Flat) in
    let t := t_remove t 2 (mkTone 2 DblSharp) in
    let t := t_remove t 9 (mkTone 9 DblSharp) in
    with_t st t
  else if (tr =? Min3) || (tr =? Dim3) || (tr =? HDim) || (tr =? FDim) then
    let t := t_remove t 2 (mkTone 2 Sharp) in
    let t := t_remove t 9 (mkTone 9 Sharp) in
    let t := t_remove t 4 (mkTone 4 DblFlat) in
    let t := t_remove t 11 (mkTone 11 DblFlat) in
    with_t st t
  else st.

(** sus chords with a sharp second or flatted fourth; the [for] runs once,
    every path ends in a [break]. *)
Definition step_sus (st : canon) : canon :=
  if c_triad st =? Sus then
    let t := c_t st in
    let count := t_len t 4 + t_len t 11 in
    let t := t_remove t 4 (mkTone 4 Flat) in
    let t := t_remove t 11 (mkTone 11 Flat) in
    if t_len t 4 + t_len t 11 <? count then with_triad (with_t st t) Maj3
    else
      let t := t_remove t 4 (mkTone 4 DblFlat) in
      let t := t_remove t 11 (mkTone 11 DblFlat) in
      if t_len t 4 + t_len t 11 <? count then with_triad (with_t st t) Min3
      else
        let count := t_len t 2 + t_len t 9 in
        let t := t_remove t 2 (mkTone 2 Sharp) in
        let t := t_remove t 9 (mkTone 9 Sharp) in
        if t_len t 2 + t_len t 9 <? count then with_triad (with_t st t) Min3
        else
          let t := t_remove t 2 (mkTone 2 DblSharp) in
          let t := t_remove t 9 (mkTone 9 DblSharp) in
          if t_len t 2 + t_len t 9 <? count then with_triad (with_t st t) Maj3
          else with_t st t
  else st.

(** fully-diminished chords don't need to specify 6th *)
Definition step_fdim6 (st : canon) : canon :=
  if c_triad st =? FDim then
    with_t st (t_remove (t_remove (c_t st) 6 (mkTone 6 Natural)) 13 (mkTone 13 Natural))
  else st.

(** augmented chords don't need to specify flat 6th *)
Definition step_aug6 (st : canon) : canon :=
  if (c_triad st =? Aug3) || containsTone (c_t st !!! 5) (mkTone 5 Sharp) then
    with_t st (t_remove (t_remove (c_t st) 6 (mkTone 6 Flat)) 13 (mkTone 13 Flat))
  else st.

(** (non-sus) diminished chords don't need to specify sharp 4th *)
Definition step_dim4 (st : canon) : canon :=
  let tr := c_triad st in
  if (tr =? Dim3) || (tr =? HDim) || (tr =? FDim)
     || (negb (tr =? Sus) && containsTone (c_t st !!! 5) (mkTone 5 Flat)) then
    with_t st (t_remove (t_remove (c_t st) 4 (mkTone 4 Sharp)) 11 (mkTone 11 Sharp))
  else st.

(** sus chords w/ flat 5th *)
Definition step_sus4 (st : canon) : canon :=
  if (c_triad st =? Sus) && containsTone (c_t st !!! 5) (mkTone 5 Flat) then
    let t := c_t st in
    if 0 <? t_len t 2 + t_len t 9 then
      with_t st (t_remove (t_remove t 4 (mkTone 4 Sharp)) 11 (mkTone 11 Sharp))
    else
      let count := t_len t 4 + t_len t 11 in
      let t := t_remove (t_remove t 4 (mkTone 4 Sharp)) 11 (mkTone 11 Sharp) in
      if (t_len t 4 + t_len t 11 =? 0) && (0 <? count)
      then with_t st (<[4 := [mkTone 4 Sharp]]> t)
      else with_t st t
  else st.

(** chords with perfect fifth don't need a double-sharp fourth *)
Definition step_perfect (st : canon) : canon :=
  if ((c_triad st =? Min3) || (c_triad st =? Maj3))
     && ((t_len (c_t st) 5 =? 0) || containsTone (c_t st !!! 5) (mkTone 5 Natural)) then
    with_t st (t_remove (t_remove (c_t st) 4 (mkTone 4 DblSharp)) 11 (mkTone 11 DblSharp))
  else st.

(** Everything up to the comment "now we want to remove any redundant
    tones": no step here depends on an order the language leaves open. *)
Definition rewrite_steps (ch : Chord) : canon :=
  step_perfect (step_sus4 (step_dim4 (step_aug6 (step_fdim6 (step_sus
    (step_thirds (step_implied (step_hdim (step_dim7 (step_major (step_minor
      (step_fifth (collect ch))))))))))))).

(** [for k, v := range t] of range statement [site]: the keys present
    when the loop starts, in the order [o] gives.  An entry the body
    creates is not visited in the model (Go may visit it or not). *)
Definition range_keys (o : Order) (site : nat) (t : gmap Z (list ChordTone)) : list Z :=
  ord_keys o site (List.map fst (map_to_list t)).

Definition shift_Val (d : Z) (v : list ChordTone) : list ChordTone :=
  List.map (fun tn => mkTone (wrap8 (tone_Val tn + d)) (tone_Acc tn)) v.

(** [t[k'] = append(t[k'], v...); t[k] = nil] after the values of [v]
    were moved by [d]. *)
Definition move_key (t : gmap Z (list ChordTone)) (k : Z) (d : Z)
  : gmap Z (list ChordTone) :=
  let v := shift_Val d (t !!! k) in
  let k' := wrap8 (k + d) in
  <[k := []]> (<[k' := (t !!! k') ++ v]> t).

(** 1. first consolidate like tones (combine 2s and 9s; 4s and 11s; etc) *)
Definition consolidate_up (t : gmap Z (list ChordTone)) (k : Z) : gmap Z (list ChordTone) :=
  if (k <? 7) && negb (k =? 5) then move_key t k 7
  else if (k =? 12) || (k =? 14) then move_key t k (-7)
  else t.

Definition consolidate_down (t : gmap Z (list ChordTone)) (k : Z) : gmap Z (list ChordTone) :=
  if 7 <? k then move_key t k (-7) else t.

Definition consolidate (o : Order) (hasSeventh : bool) (t : gmap Z (list ChordTone))
  : gmap Z (list ChordTone) :=
  if hasSeventh then fold_left consolidate_up (range_keys o 0 t) t
  else fold_left consolidate_down (range_keys o 1 t) t.

(** 2. remove tones that have identical modifiers: the tones of a degree
    go through a set and come back in the order of the range over it. *)
Definition dedup_key (o : Order) (t : gmap Z (list ChordTone)) (k : Z)
  : gmap Z (list ChordTone) :=
  let tones : gset ChordTone := list_to_set (t !!! k) in
  <[k := ord_set o k (elements tones)]> t.

Definition dedup (o : Order) (t : gmap Z (list ChordTone)) : gmap Z (list ChordTone) :=
  fold_left (dedup_key o) (range_keys o 2 t) t.

(** The loop choosing [toDemote]: a natural tone if present, otherwise
    the minimum accidental.  [i] is the index of the head of [rest]. *)
Fixpoint pick_toDemote (all rest : list ChordTone) (i : nat) (toDemote : option nat)
  : option nat :=
  match rest with
  | [] => toDemote
  | tn :: rest' =>
      if tone_Acc tn =? Natural then Some i
      else
        match toDemote with
        | None => pick_toDemote all rest' (S i) (Some i)
        | Some j =>
            if tone_Acc tn <? tone_Acc (nth j all (mkTone 0 0))
            then pick_toDemote all rest' (S i) (Some i)
            else pick_toDemote all rest' (S i) (Some j)
        end
  end.

(** Moves the chosen tone of [t[hi]] to [t[lo]], with value [lo]. *)
Definition demote (t : gmap Z (list ChordTone)) (hi lo : Z) : gmap Z (list ChordTone) :=
  let highs := t !!! hi in
  match pick_toDemote highs highs 0 None with
  | None => t
  | Some i =>
      let tn := nth i highs (mkTone 0 0) in
      <[hi := (take i highs ++ drop (S i) highs)%list]>
        (<[lo := [mkTone lo (tone_Acc tn)]]> t)
  end.

Definition susDemote (hasSeventh : bool) (tr : Z) (t : gmap Z (list ChordTone))
  : gmap Z (list ChordTone) :=
  if hasSeventh && (tr =? Sus) then
    if 0 <? t_len t 11 then demote t 11 4
    else if 0 <? t_len t 9 then demote t 9 2
    else t
  else t.

(** sorting tones for canonicalizing chords' extra tones *)
Definition MaxInt8 : Z := 127.

Definition toneOrder (b : Z) : Z := if b =? 5 then MaxInt8 else b.

Definition tones_Less (x y : ChordTone) : bool :=
  let bi := toneOrder (tone_Val x) in
  let bj := toneOrder (tone_Val y) in
  if bi <? bj then true
  else if bi =? bj then Accidental_Offset (tone_Acc x) <? Accidental_Offset (tone_Acc y)
  else false.

Section Sorting.
Context {A : Type} (less : A -> A -> bool).

Fixpoint insert_sorted (x : A) (l : list A) : list A :=
  match l with
  | [] => [x]
  | y :: l' => if less x y then x :: y :: l' else y :: insert_sorted x l'
  end.

Fixpoint insertion_sort (l : list A) : list A :=
  match l with
  | [] => []
  | x :: l' => insert_sorted x (insertion_sort l')
  end.

(** [sort.Sort] is not stable: it returns one of the arrangements
    sorted for [less].  Sorting an arbitrary rearrangement [pre l] of
    the input stably yields any one of them. *)
Definition sort_Sort (pre : list A -> list A) (l : list A) : list A :=
  insertion_sort (pre l).
End Sorting.

(** now we can construct the canonical slice of tones *)
Definition flatten (o : Order) (t : gmap Z (list ChordTone)) : list ChordTone :=
  List.concat (List.map (fun k => t !!! k) (range_keys o 3 t)).

Definition final_map (o : Order) (ch : Chord) : gmap Z (list ChordTone) :=
  let st := rewrite_steps ch in
  susDemote (c_hasSeventh st) (c_triad st)
    (dedup o (consolidate o (c_hasSeventh st) (c_t st))).

(** [Canonicalize] has a pointer receiver: the chord after the call. *)
Definition Canonicalize_with (o : Order) (ch : Chord) : Chord :=
  if canonical ch then ch
  else
    mkChord (Root ch) (c_triad (rewrite_steps ch))
            (sort_Sort tones_Less (ord_sort o) (flatten o (final_map o ch)))
            (Bass ch) true.

Definition Canonicalize (ch : Chord) : Chord := Canonicalize_with Order_id ch.

(* ================================================================= *)
(** ** Spell *)

(** sorting tones for spelling chords *)
Record spellTones : Type := mkSpellTones {
  st_t : list ChordTone;
  st_susTone : ChordTone;
  st_hasSeventh : bool
}.

(** [for _, t := range tns { if t.Val == lo { t2 = t } else if t.Val == hi
    { t4 = t } }] *)
Definition last_two (lo hi : Z) (tns : list ChordTone) (t2 t4 : ChordTone)
  : ChordTone * ChordTone :=
  fold_left (fun acc t =>
               if tone_Val t =? lo then (t, snd acc)
               else if tone_Val t =? hi then (fst acc, t)
               else acc) tns (t2, t4).

Definition spellTonesFor (tns : list ChordTone) (isSus : bool) : spellTones :=
  let zero := mkTone 0 0 in
  let st :=
    if isSus then
      let '(t2, t4) := last_two 2 4 tns zero zero in
      if negb (tone_Val t4 =? 0) then t4
      else if negb (tone_Val t2 =? 0) then t2
      else
        let '(t2, t4) := last_two 9 11 tns t2 t4 in
        if negb (tone_Val t4 =? 0) then t4
        else if negb (tone_Val t2 =? 0) then t2
        else zero
    else zero in
  mkSpellTones tns st (existsb (fun t => tone_Val t =? 7) tns).

Definition spellToneOrder (t : spellTones) (tn : ChordTone) : Z :=
  if (tone_Val tn =? 1) || (tone_Val tn =? 3) || (tone_Val tn =? 5) || (tone_Val tn =? 7)
  then tone_Val tn
  else if (tone_Val tn <? 5) && tone_eqb tn (st_susTone t) then tone_Val tn
  else if (tone_Val tn =? 6) && negb (st_hasSeventh t) then tone_Val tn
  else wrap8 (tone_Val tn + 7).

Definition spell_Less (t : spellTones) (x y : ChordTone) : bool :=
  let bi := spellToneOrder t x in
  let bj := spellToneOrder t y in
  if bi <? bj then true
  else if bi =? bj then Accidental_Offset (tone_Acc x) <? Accidental_Offset (tone_Acc y)
  else false.

(** The loop of [Spell] that looks for a 5 and a 7, with its [break]s. *)
Fixpoint scan_fifth_seventh (tr : Z) (es : list ChordTone) (hasFifth hasSeventh : bool)
  : bool * bool :=
  match es with
  | [] => (hasFifth, hasSeventh)
  | tn :: es' =>
      let hasFifth' := if tone_Val tn =? 5 then true else hasFifth in
      if (tone_Val tn =? 5)
         && (hasSeventh || (negb (tr =? FDim) && negb (tr =? HDim)))
      then (hasFifth', hasSeventh)
      else
        let hasSeventh' := if tone_Val tn =? 7 then true else hasSeventh in
        if (tone_Val tn =? 7) && hasFifth' then (hasFifth', hasSeventh')
        else scan_fifth_seventh tr es' hasFifth' hasSeventh'
  end.

Definition spell_tones (ch : Chord) : list ChordTone :=
  let tones := [mkTone 1 Natural] in
  let tones := if negb (Triad ch =? Sus) then (tones ++ [mkTone 3 Natural])%list else tones in
  let '(hasFifth, hasSeventh) := scan_fifth_seventh (Triad ch) (ExtraTones ch) false false in
  let tones := if negb hasFifth then (tones ++ [fifthTone (Triad ch)])%list else tones in
  let tones := if negb hasSeventh && ((Triad ch =? FDim) || (Triad ch =? HDim))
               then (tones ++ [mkTone 7 Natural])%list else tones in
  (tones ++ ExtraTones ch)%list.

Definition tone_interval (std : list Z) (tn : ChordTone) : result Interval :=
  let v := if 7 <? tone_Val tn then wrap8 (tone_Val tn - 7) else tone_Val tn in
  do s <- idx std (wrap8 (v - 1));
  Ok (mkInterval v (wrap8 (s + Accidental_Offset (tone_Acc tn)))).

Definition Spell_with (o : Order) (ch : Chord) : result (list Note) :=
  let tones := spell_tones ch in
  let tones := sort_Sort (spell_Less (spellTonesFor tones (Triad ch =? Sus)))
                         (ord_sort o) tones in
  do std <- idx standardIntervals (Triad ch);
  do ints <- rmapM (tone_interval std) tones;
  do ret <- TransposeNote (Root ch) ints;
  if negb (note_N (Bass ch) =? 0) then Ok (Bass ch :: ret) else Ok ret.

Definition Spell (ch : Chord) : result (list Note) := Spell_with Order_id ch.

(* ================================================================= *)
(** ** String *)

Definition ChordTone_String (t : ChordTone) : string :=
  let acc := if (tone_Val t =? 7) && (tone_Acc t =? Sharp) then sym_maj7
             else if negb (tone_Acc t =? Natural) then Accidental_String (tone_Acc t)
             else ""%string in
  (acc ++ fmt_d (tone_Val t))%string.

Definition byte_of (a : ascii) : Z := Z.of_N (N_of_ascii a).

(** [str[:len(str)-1]] *)
Fixpoint drop_last (s : string) : string :=
  match s with
  | EmptyString => EmptyString
  | String c EmptyString => EmptyString
  | String c s' => String c (drop_last s')
  end.

(** [prev[len(prev)-1]] and [str[0]], for non-empty strings. *)
Fixpoint last_byte (s : string) : Z :=
  match s with
  | EmptyString => 0
  | String c EmptyString => byte_of c
  | String _ s' => last_byte s'
  end.

Definition first_byte (s : string) : Z :=
  match s with
  | EmptyString => 0
  | String c _ => byte_of c
  end.

Definition is_digit (c : Z) : bool := (48 <=? c) && (c <=? 57).

(** The loop of [String] from tone number [i] on; [b] is the buffer. *)
Fixpoint String_tones (tr : Z) (len : Z) (es : list ChordTone) (i : Z)
  (prev : string) (b : string) : string :=
  match es with
  | [] => b
  | t :: es' =>
      let str := ChordTone_String t in
      let nextHigh := match es' with
                      | t' :: _ => (7 <? tone_Val t') && (tone_Acc t' =? Natural)
                      | [] => false
                      end in
      let str :=
        if (tone_Val t =? 7) && ((tone_Acc t =? Natural) || (tone_Acc t =? Sharp))
           && ((i =? 0) || ((tr =? Sus) && (i =? 1)))
           && (nextHigh || ((i =? len - 1) && ((tr =? FDim) || (tr =? HDim))))
        then drop_last str else str in
      if Nat.eqb (String.length str) 0 then String_tones tr len es' (i + 1) prev b
      else
        let b := if negb (Nat.eqb (String.length prev) 0) && is_digit (last_byte prev)
                    && is_digit (first_byte str)
                 then (b ++ " ")%string else b in
        String_tones tr len es' (i + 1) str (b ++ str)%string
  end.

Definition Chord_String (ch : Chord) : string :=
  let b := Note_String (Root ch) in
  let b := if negb (Triad ch =? Maj3) then (b ++ TriadType_String (Triad ch))%string else b in
  let b := String_tones (Triad ch) (zlen (ExtraTones ch)) (ExtraTones ch) 0 "" b in
  if 0 <? note_N (Bass ch) then (b ++ "/" ++ Note_String (Bass ch))%string else b.

(* ================================================================= *)
(** ** Decidable forms of the statements about the pitch algebra *)

(** The letter [k] letters after [n], cyclically through A..G: the
    target letter in the specification's description of [Transpose]. *)
Definition letter_advance (n k : Z) : Z := 65 + (n - 65 + k) mod 7.

(** What [Transpose] guarantees at [(n, i)]: a valid note with the
    cardinal of [n] moved by the half steps of [i], which is the note of
    the target letter whenever an accidental in [-2, 2] reaches that
    cardinal from the target letter. *)
Definition Transpose_check (n : Note) (i : Interval) : bool :=
  match Note_Transpose n i, Note_Cardinal n, Interval_NumHalfSteps i with
  | Ok r, Ok cn, Ok h =>
      Note_IsValid r &&
      match Note_Cardinal r with
      | Ok cr => cr =? (cn + h) mod 12
      | _ => false
      end &&
      let tl := letter_advance (note_N n) (intv_Val i - 1) in
      forallb (fun a =>
                 match NoteName_Cardinal tl with
                 | Ok ct => implb ((ct + a) mod 12 =? (cn + h) mod 12)
                                  (bool_decide (r = mkNote tl a))
                 | _ => false
                 end) [-2; -1; 0; 1; 2]
  | _, _, _ => false
  end.

Definition all_names : list Z := [65; 66; 67; 68; 69; 70; 71].
Definition all_accidentals : list Z := [-2; -1; 0; 1; 2].

Definition notes_with (accs : list Z) : list Note :=
  flat_map (fun n => List.map (fun a => mkNote n a) accs) all_names.

Definition all_intervals : list Interval :=
  flat_map (fun v => List.map (fun o => mkInterval v o) all_accidentals) [1; 2; 3; 4; 5; 6; 7].

(* ================================================================= *)
(** ** Notions used to state the properties of Canonicalize *)

(** Every tone filed under degree [k] has value [k], and the degrees are
    those of valid tones. *)
Definition well_keyed (t : gmap Z (list ChordTone)) : Prop :=
  forall k v, t !! k = Some v -> 1 <= k <= 14 /\ Forall (fun e => tone_Val e = k) v.

(** The 7ths that [Canonicalize] counts as stated: a double-sharp 7 is
    dropped before it is looked at. *)
Definition stated_sevenths (es : list ChordTone) : list ChordTone :=
  List.filter (fun e => (tone_Val e =? 7) && negb (tone_Acc e =? DblSharp)) es.

(** Some tone above 7 implies a 7th. *)
Definition implies_seventh (es : list ChordTone) : bool :=
  existsb (fun e => 7 <? tone_Val e) es.

(** The tones the first loop of [Canonicalize] files under degree [k]. *)
Definition filed (k : Z) (e : ChordTone) : bool :=
  (tone_Val e =? k)
  && negb (((tone_Val e =? 7) && (tone_Acc e =? DblSharp))
           || ((tone_Val e =? 2) && (tone_Acc e =? DblFlat))
           || ((tone_Val e =? 9) && (tone_Acc e =? DblFlat))).

(** Two maps holding, degree by degree, the same tones up to order. *)
Definition same_tones (t1 t2 : gmap Z (list ChordTone)) : Prop :=
  forall k, Permutation (t1 !!! k) (t2 !!! k).

(** The degrees of valid tones, in increasing order. *)
Definition all_degrees : list Z := [1; 2; 3; 4; 5; 6; 7; 8; 9; 10; 11; 12; 13; 14].

(** An order that visits and arranges everything backwards. *)
Definition Order_rev : Order :=
  mkOrder (fun _ ks => rev ks) (fun _ l => rev l) (fun l => rev l).

(** What [IntervalTo] guarantees between notes of different letters: a
    valid interval spanning the half steps between the two cardinals. *)
Definition IntervalTo_check (x y : Note) : bool :=
  match Note_IntervalTo x y, Note_Cardinal x, Note_Cardinal y with
  | Ok i, Ok cx, Ok cy =>
      Interval_IsValid i &&
      match Interval_NumHalfSteps i with
      | Ok h => h =? (cy - cx) mod 12
      | _ => false
      end
  | _, _, _ => false
  end.

(* ================================================================= *)
(** * Properties *)

(** ** The tables built by [init] *)

Lemma init_offsetsByNote_ok : init_offsetsByNote = Ok offsetsByNote.
Proof. vm_cast_no_check (eq_refl (Ok offsetsByNote)). Qed.

Lemma init_majorScales_ok :
  init_majorScales_range offsetsByNote Natural DblSharp = Ok majorScales.
Proof. vm_cast_no_check (eq_refl (Ok majorScales)). Qed.

(** The loop [for acc := Natural; acc < DblSharp; acc++] gives scales to
    the natural and the sharp roots only. *)
Lemma majorScales_roots :
  forallb (fun n => Bool.eqb (bool_decide (is_Some (majorScales !! n)))
                             (bool_decide (n ∈ notes_with [Natural; Sharp])))
          (notes_with all_accidentals) = true /\
  List.length (map_to_list majorScales) = 14%nat.
Proof. split; vm_compute; reflexivity. Qed.

(** ** Validate *)

Lemma Validate_tones_inr (es : list ChordTone) (t t' : gmap Z Z) :
  Validate_tones es t = inr t' ->
  forall e, In e es ->
    ChordTone_IsValid e = true /\
    In (tone_Val e) [2; 4; 5; 6; 7; 9; 11; 12; 13; 14].
Proof.
  revert t. induction es as [| e0 es IH]; intros t Hv e Hin; [destruct Hin |].
  simpl in Hv.
  destruct (ChordTone_IsValid e0) eqn:Hvalid; simpl in Hv; [| discriminate].
  set (v := if 7 <? tone_Val e0 then wrap8 (tone_Val e0 - 7) else tone_Val e0) in *.
  destruct ((v <? 2) || (v =? 3) || (7 <? v)) eqn:Hdeg; [discriminate |].
  assert (Hhead : In (tone_Val e0) [2; 4; 5; 6; 7; 9; 11; 12; 13; 14]).
  { unfold ChordTone_IsValid in Hvalid.
    apply andb_true_iff in Hvalid as [Hr _].
    apply andb_true_iff in Hr as [Hlo Hhi].
    apply orb_false_iff in Hdeg as [Hdeg H7].
    apply orb_false_iff in Hdeg as [H2 H3].
    subst v. unfold wrap8 in *.
    destruct (7 <? tone_Val e0) eqn:Hgt.
    - assert (Hm : (tone_Val e0 - 7 + 128) mod 256 = tone_Val e0 - 7 + 128)
        by (apply Z.mod_small; lia).
      rewrite Hm in *. simpl. lia.
    - simpl. lia. }
  destruct Hin as [<- | Hin].
  - split; [exact Hvalid | exact Hhead].
  - destruct (t !! v) as [a |].
    + destruct (negb (a =? tone_Acc e0)); [discriminate |]. eapply IH; eauto.
    + eapply IH; eauto.
Qed.

(** C9. Validation never mutates the chord: after [Validate], whether it
    returns nil or an error, Root, Triad, ExtraTones, Bass and the
    canonical flag of the receiver are what they were before the call. *)
Theorem Validate_leaves_chord_unchanged (ch : Chord) :
  fst (Validate ch) = ch /\
  Root (fst (Validate ch)) = Root ch /\
  Triad (fst (Validate ch)) = Triad ch /\
  ExtraTones (fst (Validate ch)) = ExtraTones ch /\
  Bass (fst (Validate ch)) = Bass ch /\
  canonical (fst (Validate ch)) = canonical ch.
Proof.
  assert (H : fst (Validate ch) = ch).
  { unfold Validate.
    destruct (negb (Note_IsValid (Root ch))); [reflexivity |].
    destruct (negb (note_N (Bass ch) =? 0) && negb (Note_IsValid (Bass ch)));
      [reflexivity |].
    destruct (negb (TriadType_IsValid (Triad ch))); [reflexivity |].
    destruct (Validate_tones (ExtraTones ch) ∅); reflexivity. }
  rewrite H. repeat split; reflexivity.
Qed.

(** C10. A chord with an extra tone of value 1, 3, 8 or 10 (degree 1 or
    3 once reduced) is rejected by [Validate], although [IsValid] accepts
    such a tone whenever its accidental is valid; a chord that passes
    has only extra tones whose reduced degree is 2, 4, 5, 6 or 7. *)
Theorem Validate_rejects_first_and_third_degrees (ch : Chord) (e : ChordTone) :
  In e (ExtraTones ch) ->
  (In (tone_Val e) [1; 3; 8; 10] -> snd (Validate ch) <> None) /\
  (In (tone_Val e) [1; 3; 8; 10] -> Accidental_IsValid (tone_Acc e) = true ->
   ChordTone_IsValid e = true) /\
  (snd (Validate ch) = None ->
   In (if 7 <? tone_Val e then tone_Val e - 7 else tone_Val e) [2; 4; 5; 6; 7]).
Proof.
  intros Hin.
  assert (Hpass : snd (Validate ch) = None ->
                  In (tone_Val e) [2; 4; 5; 6; 7; 9; 11; 12; 13; 14]).
  { unfold Validate.
    destruct (negb (Note_IsValid (Root ch))); [discriminate |].
    destruct (negb (note_N (Bass ch) =? 0) && negb (Note_IsValid (Bass ch)));
      [discriminate |].
    destruct (negb (TriadType_IsValid (Triad ch))); [discriminate |].
    destruct (Validate_tones (ExtraTones ch) ∅) as [err | t] eqn:Ht; [discriminate |].
    intros _. eapply Validate_tones_inr; eauto. }
  split; [| split].
  - intros Hv Hnone. specialize (Hpass Hnone). simpl in Hv, Hpass. lia.
  - intros Hv Hacc. unfold ChordTone_IsValid. rewrite Hacc.
    simpl in Hv.
    destruct Hv as [<- | [<- | [<- | [<- | []]]]]; reflexivity.
  - intros Hnone. specialize (Hpass Hnone). simpl in Hpass.
    destruct Hpass as [<- | [<- | [<- | [<- | [<- | [<- | [<- | [<- | [<- | [<- | []]]]]]]]]]];
      simpl; auto 10.
Qed.

Lemma Validate_rejects_first_and_third_degrees_witness :
  snd (Validate (mkChord (mkNote C_ Natural) Maj3 [mkTone 3 Natural] noNote false)) <> None.
Proof.
  exact (proj1 (Validate_rejects_first_and_third_degrees
                  (mkChord (mkNote C_ Natural) Maj3 [mkTone 3 Natural] noNote false)
                  (mkTone 3 Natural) (or_introl eq_refl))
               (or_intror (or_introl eq_refl))).
Defined.

(** ** Canonicalize: the flag *)

(** C6. A second [Canonicalize] is a no-op: the first call leaves the
    canonical flag set, and the second returns on seeing it, whatever
    orders the two calls would have met. *)
Theorem Canonicalize_twice (o1 o2 : Order) (c : Chord) :
  canonical (Canonicalize_with o1 c) = true /\
  Canonicalize_with o2 (Canonicalize_with o1 c) = Canonicalize_with o1 c.
Proof.
  assert (H : canonical (Canonicalize_with o1 c) = true).
  { unfold Canonicalize_with. destruct (canonical c) eqn:Hc; [exact Hc | reflexivity]. }
  split; [exact H |].
  unfold Canonicalize_with at 1. rewrite H. reflexivity.
Qed.

(** ** The pitch algebra *)

Lemma In_notes_with (accs : list Z) (n : Note) :
  NoteName_IsValid (note_N n) = true -> In (note_Acc n) accs -> In n (notes_with accs).
Proof.
  intros Hn Ha. unfold notes_with. apply in_flat_map.
  exists (note_N n). split.
  - unfold NoteName_IsValid, A_, G_ in Hn. apply andb_true_iff in Hn as [H1 H2].
    unfold all_names. simpl. lia.
  - apply in_map_iff. exists (note_Acc n). split; [destruct n; reflexivity | exact Ha].
Qed.

Lemma Accidental_IsValid_In (a : Z) :
  Accidental_IsValid a = true -> In a all_accidentals.
Proof.
  unfold Accidental_IsValid, DblFlat, DblSharp, all_accidentals.
  intros H. apply andb_true_iff in H as [H1 H2]. simpl. lia.
Qed.

Lemma In_all_intervals (i : Interval) :
  Interval_IsValid i = true -> In i all_intervals.
Proof.
  unfold Interval_IsValid. intros H.
  apply andb_true_iff in H as [H H4]. apply andb_true_iff in H as [H H3].
  apply andb_true_iff in H as [H1 H2].
  unfold all_intervals. apply in_flat_map. exists (intv_Val i). split.
  - simpl. lia.
  - apply in_map_iff. exists (intv_Offset i). split; [destruct i; reflexivity |].
    unfold all_accidentals. simpl. lia.
Qed.

Lemma Transpose_check_all :
  forallb (fun n => forallb (Transpose_check n) all_intervals)
          (notes_with [Natural; Sharp]) = true.
Proof. vm_compute. reflexivity. Qed.

(** C2, as the code has it.  For a valid note with a natural or sharp
    accidental and a valid interval, [Transpose] returns a valid note
    whose cardinal is the note's cardinal plus the half steps of the
    interval (mod 12); when some accidental in [-2, 2] reaches that
    cardinal from the letter [degree - 1] letters on, the result is that
    letter with that accidental (otherwise it is respelled on another
    letter). *)
Theorem Transpose_natural_or_sharp (n : Note) (i : Interval) :
  Note_IsValid n = true ->
  note_Acc n = Natural \/ note_Acc n = Sharp ->
  Interval_IsValid i = true ->
  exists r cn h,
    Note_Transpose n i = Ok r /\
    Note_Cardinal n = Ok cn /\
    Interval_NumHalfSteps i = Ok h /\
    Note_IsValid r = true /\
    Note_Cardinal r = Ok ((cn + h) mod 12) /\
    forall a ct,
      -2 <= a <= 2 ->
      NoteName_Cardinal (letter_advance (note_N n) (intv_Val i - 1)) = Ok ct ->
      (ct + a) mod 12 = (cn + h) mod 12 ->
      r = mkNote (letter_advance (note_N n) (intv_Val i - 1)) a.
Proof.
  intros Hn Ha Hi.
  assert (Hc : Transpose_check n i = true).
  { pose proof Transpose_check_all as Hall.
    rewrite forallb_forall in Hall.
    assert (Hin : In n (notes_with [Natural; Sharp])).
    { apply In_notes_with.
      - unfold Note_IsValid in Hn. apply andb_true_iff in Hn as [H _]. exact H.
      - simpl. destruct Ha as [-> | ->]; auto. }
    specialize (Hall n Hin). rewrite forallb_forall in Hall.
    apply Hall, In_all_intervals, Hi. }
  unfold Transpose_check in Hc.
  destruct (Note_Transpose n i) as [r | |]; try discriminate.
  destruct (Note_Cardinal n) as [cn | |]; try discriminate.
  destruct (Interval_NumHalfSteps i) as [h | |]; try discriminate.
  apply andb_true_iff in Hc as [Hc Hall].
  apply andb_true_iff in Hc as [Hvalid Hcard].
  destruct (Note_Cardinal r) as [cr | |] eqn:Hcr; try discriminate.
  apply Z.eqb_eq in Hcard. subst cr.
  exists r, cn, h.
  split; [reflexivity |]. split; [reflexivity |]. split; [reflexivity |].
  split; [exact Hvalid |]. split; [exact Hcr |].
  intros a ct Hrange Hct Hcong.
  rewrite forallb_forall in Hall.
  assert (Hina : In a [-2; -1; 0; 1; 2]) by (simpl; lia).
  specialize (Hall a Hina). rewrite Hct in Hall.
  apply Z.eqb_eq in Hcong. rewrite Hcong in Hall. simpl in Hall.
  apply bool_decide_eq_true in Hall. exact Hall.
Qed.

Lemma Transpose_natural_or_sharp_witness :
  exists r cn h,
    Note_Transpose (mkNote C_ Natural) (mkInterval 3 (-1)) = Ok r /\
    Note_Cardinal (mkNote C_ Natural) = Ok cn /\
    Interval_NumHalfSteps (mkInterval 3 (-1)) = Ok h /\
    Note_IsValid r = true /\
    Note_Cardinal r = Ok ((cn + h) mod 12) /\
    forall a ct,
      -2 <= a <= 2 ->
      NoteName_Cardinal (letter_advance C_ (3 - 1)) = Ok ct ->
      (ct + a) mod 12 = (cn + h) mod 12 ->
      r = mkNote (letter_advance C_ (3 - 1)) a.
Proof.
  apply (Transpose_natural_or_sharp (mkNote C_ Natural) (mkInterval 3 (-1))).
  - reflexivity.
  - left. reflexivity.
  - reflexivity.
Defined.

(** C2 as stated fails.  A sharp raised by a sharp seventh: the seventh
    letter after A is G, no accidental in [-2, 2] on G has the cardinal
    asked for, and [Transpose] answers A sharp, on the letter A. *)
Lemma Transpose_unique_note_counterexample :
  Note_IsValid (mkNote A_ Sharp) = true /\
  Interval_IsValid (mkInterval 7 1) = true /\
  ~ (exists r cn h ct,
       Note_Transpose (mkNote A_ Sharp) (mkInterval 7 1) = Ok r /\
       Note_Cardinal (mkNote A_ Sharp) = Ok cn /\
       Interval_NumHalfSteps (mkInterval 7 1) = Ok h /\
       NoteName_Cardinal (letter_advance A_ (7 - 1)) = Ok ct /\
       note_N r = letter_advance A_ (7 - 1) /\
       -2 <= note_Acc r <= 2 /\
       (ct + Accidental_Offset (note_Acc r)) mod 12 = (cn + h) mod 12).
Proof.
  split; [reflexivity | split; [reflexivity |]].
  intros H. destruct H as (r & cn & h & ct & Hr & _ & _ & _ & Hletter & _).
  vm_compute in Hr. injection Hr as <-.
  vm_compute in Hletter. discriminate.
Qed.

(** C3.  [IntervalTo] between two valid notes of the same letter does
    not return: the starting degree is [posMod(0, 8) = 0], and
    [NumHalfSteps] indexes [stepsByInterval] at [-1]. *)
Theorem IntervalTo_same_letter_panics (a b : Note) :
  Note_IsValid a = true -> Note_IsValid b = true -> note_N a = note_N b ->
  Note_IntervalTo a b = Panic.
Proof.
  intros Ha Hb Heq.
  assert (Hia : In a (notes_with all_accidentals)).
  { unfold Note_IsValid in Ha. apply andb_true_iff in Ha as [H1 H2].
    apply In_notes_with; [exact H1 | apply Accidental_IsValid_In, H2]. }
  assert (Hib : In b (notes_with all_accidentals)).
  { unfold Note_IsValid in Hb. apply andb_true_iff in Hb as [H1 H2].
    apply In_notes_with; [exact H1 | apply Accidental_IsValid_In, H2]. }
  assert (Hall : forallb (fun x => forallb (fun y =>
            implb (note_N x =? note_N y)
                  (match Note_IntervalTo x y with Panic => true | _ => false end))
            (notes_with all_accidentals)) (notes_with all_accidentals) = true)
    by (vm_compute; reflexivity).
  rewrite forallb_forall in Hall. specialize (Hall a Hia).
  rewrite forallb_forall in Hall. specialize (Hall b Hib).
  rewrite Heq, Z.eqb_refl in Hall. simpl in Hall.
  destruct (Note_IntervalTo a b); [discriminate | reflexivity | discriminate].
Qed.

Lemma IntervalTo_same_letter_panics_witness :
  Note_IntervalTo (mkNote C_ Natural) (mkNote C_ Natural) = Panic.
Proof.
  apply (IntervalTo_same_letter_panics (mkNote C_ Natural) (mkNote C_ Natural));
    reflexivity.
Defined.

(** With different letters the loops end and the interval is valid, but
    the starting degree is the letter distance itself when the second
    letter is the later one: from A to B the answer is a unison raised
    twice, not a second. *)
Lemma IntervalTo_A_B : Note_IntervalTo (mkNote A_ Natural) (mkNote B_ Natural)
                       = Ok (mkInterval 1 2).
Proof. vm_compute. reflexivity. Qed.

(** Between valid notes of different letters [IntervalTo] does return,
    and what it returns is valid and spans the right number of half
    steps: the defect of the same-letter case is in the starting degree
    alone. *)
Lemma IntervalTo_other_letters (a b : Note) :
  Note_IsValid a = true -> Note_IsValid b = true -> note_N a <> note_N b ->
  IntervalTo_check a b = true.
Proof.
  intros Ha Hb Hne.
  assert (Hia : In a (notes_with all_accidentals)).
  { unfold Note_IsValid in Ha. apply andb_true_iff in Ha as [H1 H2].
    apply In_notes_with; [exact H1 | apply Accidental_IsValid_In, H2]. }
  assert (Hib : In b (notes_with all_accidentals)).
  { unfold Note_IsValid in Hb. apply andb_true_iff in Hb as [H1 H2].
    apply In_notes_with; [exact H1 | apply Accidental_IsValid_In, H2]. }
  assert (Hall : forallb (fun x => forallb (fun y =>
            (note_N x =? note_N y) || IntervalTo_check x y)
            (notes_with all_accidentals)) (notes_with all_accidentals) = true)
    by (vm_compute; reflexivity).
  rewrite forallb_forall in Hall. specialize (Hall a Hia).
  rewrite forallb_forall in Hall. specialize (Hall b Hib).
  apply Z.eqb_neq in Hne. rewrite Hne in Hall. exact Hall.
Qed.

(** ** Parsing, spelling and rendering at concrete chords *)

(** C1.  "Bb7#9" parses to root B flat, major triad, and the tones sharp
    9 and natural 7 (the 7 is appended after the other extras), but the
    chord is not spelled: [majorScales] has no row for B flat, and the
    index into the missing row panics, before and after [Canonicalize]. *)
Theorem Bb7sharp9_parses_and_Spell_panics :
  ParseChord "Bb7#9"
  = Ok (Some (mkChord (mkNote B_ Flat) Maj3 [mkTone 9 Sharp; mkTone 7 Natural]
                      noNote false), None) /\
  ExtraTones (Canonicalize (mkChord (mkNote B_ Flat) Maj3
                              [mkTone 9 Sharp; mkTone 7 Natural] noNote false))
  = [mkTone 7 Natural; mkTone 9 Sharp] /\
  majorScales !! mkNote B_ Flat = None /\
  Note_Transpose (mkNote B_ Flat) (mkInterval 1 0) = Panic /\
  Spell (mkChord (mkNote B_ Flat) Maj3 [mkTone 9 Sharp; mkTone 7 Natural] noNote false)
  = Panic /\
  Spell (Canonicalize (mkChord (mkNote B_ Flat) Maj3
                         [mkTone 9 Sharp; mkTone 7 Natural] noNote false))
  = Panic.
Proof. repeat split; vm_compute; reflexivity. Qed.

(** Had the loop of [init] run over all five accidentals, the row of
    B flat would be the B flat major scale. *)
Lemma majorScales_full_range_Bb :
  match init_majorScales_range offsetsByNote DblFlat (DblSharp + 1) with
  | Ok m => m !! mkNote B_ Flat
  | _ => None
  end
  = Some [mkNote B_ Flat; mkNote C_ Natural; mkNote D_ Natural; mkNote E_ Flat;
          mkNote F_ Natural; mkNote G_ Natural; mkNote A_ Natural].
Proof. vm_compute. reflexivity. Qed.

(** The same chord a half step up is spelled as documented. *)
Lemma B7sharp9_spelled :
  Spell (mkChord (mkNote B_ Natural) Maj3 [mkTone 9 Sharp; mkTone 7 Natural] noNote false)
  = Ok [mkNote B_ Natural; mkNote D_ Sharp; mkNote F_ Sharp; mkNote A_ Natural;
        mkNote C_ DblSharp].
Proof. vm_compute. reflexivity. Qed.

(** C8.  On "CH" [ParseChord] returns an error and a chord: the default
    reduction of [fullChord : chord] runs its action, which sets [res],
    before the parser sees that H cannot follow. *)
Theorem ParseChord_CH_error_and_chord :
  ParseChord "CH"
  = Ok (Some (mkChord (mkNote C_ Natural) Maj3 [] noNote false),
        Some (mkSyntaxError 1 3)).
Proof. vm_compute. reflexivity. Qed.

(** When the first token is already wrong there is no chord. *)
Lemma ParseChord_H : ParseChord "H" = Ok (None, Some (mkSyntaxError 0 3)).
Proof. vm_compute. reflexivity. Qed.

(** C4.  "Cn#4" is C major with a sharp 4.  Its canonical form renders
    as C, sharp sign, 4 (a natural root has no sign), which parses as
    C sharp major with a natural 4: the notes differ, spelled as parsed
    or after [Canonicalize]. *)
Theorem render_reparse_Cn_sharp4 :
  let c := mkChord (mkNote C_ Natural) Maj3 [mkTone 4 Sharp] noNote false in
  let c' := mkChord (mkNote C_ Sharp) Maj3 [mkTone 4 Natural] noNote false in
  ParseChord "Cn#4" = Ok (Some c, None) /\
  snd (Validate c) = None /\
  Chord_String (Canonicalize c) = ("C" ++ sym_sharp ++ "4")%string /\
  ParseChord (Chord_String (Canonicalize c)) = Ok (Some c', None) /\
  Spell c = Ok [mkNote C_ Natural; mkNote E_ Natural; mkNote G_ Natural; mkNote F_ Sharp] /\
  Spell c' = Ok [mkNote C_ Sharp; mkNote E_ Sharp; mkNote G_ Sharp; mkNote F_ Sharp] /\
  Spell (Canonicalize c) = Spell c /\
  Spell (Canonicalize c') = Spell c' /\
  Spell c' <> Spell c.
Proof.
  cbv zeta. repeat split; try (vm_compute; reflexivity).
  vm_compute. discriminate.
Qed.

(** A rendering that omits an implied 7 is read back without it: the
    chord read back from the canonical form of "C-7 9" spells four
    notes until it is canonicalized again. *)
Lemma render_reparse_Cm79 :
  let c := mkChord (mkNote C_ Natural) Min3 [mkTone 9 Natural; mkTone 7 Natural]
                   noNote false in
  let c' := mkChord (mkNote C_ Natural) Min3 [mkTone 9 Natural] noNote false in
  ParseChord "C-7 9" = Ok (Some c, None) /\
  Chord_String (Canonicalize c) = "C-9"%string /\
  ParseChord "C-9" = Ok (Some c', None) /\
  Spell c = Ok [mkNote C_ Natural; mkNote E_ Flat; mkNote G_ Natural; mkNote B_ Flat;
                mkNote D_ Natural] /\
  Spell c' = Ok [mkNote C_ Natural; mkNote E_ Flat; mkNote G_ Natural; mkNote D_ Natural] /\
  Spell (Canonicalize c') = Spell c.
Proof. cbv zeta. repeat split; vm_compute; reflexivity. Qed.

(** ** Canonicalize: the degrees stay well keyed *)

Lemma wk_empty : well_keyed ∅.
Proof. intros k v H. rewrite lookup_empty in H. discriminate. Qed.

Lemma wk_insert (t : gmap Z (list ChordTone)) (k : Z) (v : list ChordTone) :
  well_keyed t -> 1 <= k <= 14 -> Forall (fun e => tone_Val e = k) v ->
  well_keyed (<[k := v]> t).
Proof.
  intros Ht Hk Hv k' v' H.
  destruct (decide (k = k')) as [<- | Hne].
  - rewrite lookup_insert_eq in H. injection H as <-. split; assumption.
  - rewrite lookup_insert_ne in H by exact Hne. apply Ht, H.
Qed.

Lemma wk_lookup_total (t : gmap Z (list ChordTone)) (k : Z) :
  well_keyed t -> Forall (fun e => tone_Val e = k) (t !!! k).
Proof.
  intros Ht. rewrite lookup_total_alt.
  destruct (t !! k) as [v |] eqn:H; simpl.
  - apply (Ht k v H).
  - constructor.
Qed.

Lemma Forall_removeTone (P : ChordTone -> Prop) (l : list ChordTone) (x : ChordTone) :
  Forall P l -> Forall P (removeTone l x).
Proof.
  intros H. unfold removeTone. rewrite List.Forall_forall in *.
  intros e He. apply filter_In in He as [He _]. apply H, He.
Qed.

Lemma wk_t_remove (t : gmap Z (list ChordTone)) (k : Z) (x : ChordTone) :
  well_keyed t -> 1 <= k <= 14 -> well_keyed (t_remove t k x).
Proof.
  intros Ht Hk. unfold t_remove. apply wk_insert; [exact Ht | exact Hk |].
  apply Forall_removeTone, wk_lookup_total, Ht.
Qed.

Lemma wk_alter_Acc (t : gmap Z (list ChordTone)) (k a : Z) :
  well_keyed t ->
  well_keyed (alter (List.map (fun s => mkTone (tone_Val s) a)) k t).
Proof.
  intros Ht k' v' H.
  destruct (decide (k = k')) as [<- | Hne].
  - rewrite lookup_alter_eq in H.
    destruct (t !! k) as [v |] eqn:Hk; simpl in H; [| discriminate].
    injection H as <-. destruct (Ht k v Hk) as [Hr Hv]. split; [exact Hr |].
    rewrite List.Forall_forall in *. intros e He.
    apply in_map_iff in He as (s & <- & Hs). simpl. apply Hv, Hs.
  - rewrite lookup_alter_ne in H by exact Hne. apply Ht, H.
Qed.

Lemma wk_collect_one (st : canon) (e : ChordTone) :
  well_keyed (c_t st) -> 1 <= tone_Val e <= 14 -> well_keyed (c_t (collect_one st e)).
Proof.
  intros Ht He. unfold collect_one.
  assert (Hins : well_keyed (<[tone_Val e := (c_t st !!! tone_Val e) ++ [e]]> (c_t st))).
  { apply wk_insert; [exact Ht | exact He |].
    apply Forall_app. split; [apply wk_lookup_total, Ht | repeat constructor]. }
  repeat match goal with
         | |- context [if ?b then _ else _] => destruct b
         end; simpl; assumption.
Qed.

Lemma wk_collect (ch : Chord) :
  Forall (fun e => 1 <= tone_Val e <= 14) (ExtraTones ch) ->
  well_keyed (c_t (collect ch)).
Proof.
  unfold collect.
  assert (H0 : forall es st0,
             Forall (fun e => 1 <= tone_Val e <= 14) es -> well_keyed (c_t st0) ->
             well_keyed (c_t (fold_left collect_one es st0))).
  { induction es as [| e es IH]; intros st0 Hes Hst; simpl; [exact Hst |].
    inversion Hes; subst. apply IH; [assumption |]. apply wk_collect_one; assumption. }
  intros H. apply H0; [exact H | apply wk_empty].
Qed.

(** Closes a goal [well_keyed (c_t (step st))] once the step is unfolded. *)
Ltac wk_step :=
  cbv zeta;
  repeat match goal with
         | |- context [if ?b then _ else _] => destruct b
         end;
  simpl;
  repeat first
    [ assumption
    | apply wk_t_remove; [| lia]
    | apply wk_alter_Acc
    | apply wk_insert; [| lia | repeat constructor; apply wk_lookup_total; assumption] ].

Lemma wk_rewrite_steps (ch : Chord) :
  Forall (fun e => 1 <= tone_Val e <= 14) (ExtraTones ch) ->
  well_keyed (c_t (rewrite_steps ch)).
Proof.
  intros H. apply wk_collect in H. unfold rewrite_steps.
  revert H. generalize (collect ch). intros st H.
  assert (H1 : well_keyed (c_t (step_fifth st))) by (unfold step_fifth; wk_step).
  revert H1. generalize (step_fifth st). clear st H. intros st H.
  assert (H1 : well_keyed (c_t (step_minor st))) by (unfold step_minor; wk_step).
  revert H1. generalize (step_minor st). clear st H. intros st H.
  assert (H1 : well_keyed (c_t (step_major st))) by (unfold step_major; wk_step).
  revert H1. generalize (step_major st). clear st H. intros st H.
  assert (H1 : well_keyed (c_t (step_dim7 st))) by (unfold step_dim7; wk_step).
  revert H1. generalize (step_dim7 st). clear st H. intros st H.
  assert (H1 : well_keyed (c_t (step_hdim st))) by (unfold step_hdim; wk_step).
  revert H1. generalize (step_hdim st). clear st H. intros st H.
  assert (H1 : well_keyed (c_t (step_implied st))).
  { unfold step_implied. destruct ((0 <? c_impliedSeventh st) && negb (c_hasSeventh st));
      [| exact H].
    simpl. apply wk_insert; [exact H | lia |].
    apply Forall_app. split; [apply wk_lookup_total, H | repeat constructor]. }
  revert H1. generalize (step_implied st). clear st H. intros st H.
  assert (H1 : well_keyed (c_t (step_thirds st))) by (unfold step_thirds; wk_step).
  revert H1. generalize (step_thirds st). clear st H. intros st H.
  assert (H1 : well_keyed (c_t (step_sus st))) by (unfold step_sus; wk_step).
  revert H1. generalize (step_sus st). clear st H. intros st H.
  assert (H1 : well_keyed (c_t (step_fdim6 st))) by (unfold step_fdim6; wk_step).
  revert H1. generalize (step_fdim6 st). clear st H. intros st H.
  assert (H1 : well_keyed (c_t (step_aug6 st))) by (unfold step_aug6; wk_step).
  revert H1. generalize (step_aug6 st). clear st H. intros st H.
  assert (H1 : well_keyed (c_t (step_dim4 st))) by (unfold step_dim4; wk_step).
  revert H1. generalize (step_dim4 st). clear st H. intros st H.
  assert (H1 : well_keyed (c_t (step_sus4 st))) by (unfold step_sus4; wk_step).
  revert H1. generalize (step_sus4 st). clear st H. intros st H.
  unfold step_perfect; wk_step.
Qed.
(** ** Canonicalize: consolidation does not depend on the order of the range *)

Lemma wrap8_small (z : Z) : -128 <= z <= 127 -> wrap8 z = z.
Proof. intros H. unfold wrap8. rewrite Z.mod_small by lia. lia. Qed.

Lemma fold_left_commute {A B : Type} (f : A -> B -> A) (P : B -> Prop) :
  (forall a x y, P x -> P y -> f (f a x) y = f (f a y) x) ->
  forall l1 l2, Permutation l1 l2 -> Forall P l1 ->
  forall a, fold_left f l1 a = fold_left f l2 a.
Proof.
  intros Hc l1 l2 Hp.
  induction Hp as [| x l1 l2 Hp IH | x y l | l1 l2 l3 Hp1 IH1 Hp2 IH2]; intros HP a; simpl.
  - reflexivity.
  - inversion HP; subst. apply IH. assumption.
  - inversion HP as [| ? ? Hy HP']; subst. inversion HP' as [| ? ? Hx ?]; subst.
    rewrite (Hc a y x Hy Hx). reflexivity.
  - rewrite IH1 by assumption. apply IH2.
    rewrite List.Forall_forall in *. intros z Hz. apply HP.
    eapply Permutation_in; [symmetry; exact Hp1 | exact Hz].
Qed.

Lemma fold_left_invariant {A B : Type} (f : A -> B -> A) (P : B -> Prop) (I : A -> Prop) :
  (forall a x, P x -> I a -> I (f a x)) ->
  forall l a, Forall P l -> I a -> I (fold_left f l a).
Proof.
  intros Hf. induction l as [| x l IH]; intros a Hl Ha; simpl; [exact Ha |].
  inversion Hl; subst. apply IH; [assumption |]. apply Hf; assumption.
Qed.

Lemma move_key_commute (t : gmap Z (list ChordTone)) (k1 d1 k2 d2 : Z) :
  k1 <> k2 -> k1 <> wrap8 (k2 + d2) -> wrap8 (k1 + d1) <> k2 ->
  wrap8 (k1 + d1) <> wrap8 (k2 + d2) ->
  move_key (move_key t k1 d1) k2 d2 = move_key (move_key t k2 d2) k1 d1.
Proof.
  intros H1 H2 H3 H4. unfold move_key.
  rewrite !lookup_total_insert_ne by congruence.
  apply map_eq. intros i.
  rewrite !lookup_insert. repeat case_decide; congruence.
Qed.

Lemma consolidate_up_commute (t : gmap Z (list ChordTone)) (k1 k2 : Z) :
  1 <= k1 <= 14 -> 1 <= k2 <= 14 ->
  consolidate_up (consolidate_up t k1) k2 = consolidate_up (consolidate_up t k2) k1.
Proof.
  intros H1 H2. unfold consolidate_up.
  destruct (decide (k1 = k2)) as [-> | Hne]; [reflexivity |].
  destruct ((k1 <? 7) && negb (k1 =? 5)) eqn:E1;
    destruct ((k2 <? 7) && negb (k2 =? 5)) eqn:E2;
    destruct ((k1 =? 12) || (k1 =? 14)) eqn:F1;
    destruct ((k2 =? 12) || (k2 =? 14)) eqn:F2;
    try reflexivity;
    apply move_key_commute; try exact Hne;
    rewrite ?wrap8_small by lia; lia.
Qed.

Lemma consolidate_down_commute (t : gmap Z (list ChordTone)) (k1 k2 : Z) :
  1 <= k1 <= 14 -> 1 <= k2 <= 14 ->
  consolidate_down (consolidate_down t k1) k2 = consolidate_down (consolidate_down t k2) k1.
Proof.
  intros H1 H2. unfold consolidate_down.
  destruct (decide (k1 = k2)) as [-> | Hne]; [reflexivity |].
  destruct (7 <? k1) eqn:E1; destruct (7 <? k2) eqn:E2; try reflexivity.
  apply move_key_commute; try exact Hne; rewrite ?wrap8_small by lia; lia.
Qed.

Lemma keys_in_range (t : gmap Z (list ChordTone)) :
  well_keyed t -> Forall (fun k => 1 <= k <= 14) (List.map fst (map_to_list t)).
Proof.
  intros Ht. rewrite List.Forall_forall. intros k Hk.
  apply in_map_iff in Hk as ([k' v] & <- & Hin). simpl.
  apply list_elem_of_In, elem_of_map_to_list in Hin. apply (Ht k' v Hin).
Qed.

Lemma range_keys_in_range (o : Order) (site : nat) (t : gmap Z (list ChordTone)) :
  Order_ok o -> well_keyed t -> Forall (fun k => 1 <= k <= 14) (range_keys o site t).
Proof.
  intros [Hk _] Ht. unfold range_keys.
  pose proof (keys_in_range t Ht) as H. rewrite List.Forall_forall in *.
  intros k Hin. apply H. eapply Permutation_in; [apply Hk | exact Hin].
Qed.

Lemma consolidate_order (o1 o2 : Order) (hs : bool) (t : gmap Z (list ChordTone)) :
  Order_ok o1 -> Order_ok o2 -> well_keyed t ->
  consolidate o1 hs t = consolidate o2 hs t.
Proof.
  intros H1 H2 Ht. unfold consolidate.
  assert (Hp : forall site, Permutation (range_keys o1 site t) (range_keys o2 site t)).
  { intros site. unfold range_keys. destruct H1 as [H1 _], H2 as [H2 _].
    rewrite H1, H2. reflexivity. }
  destruct hs.
  - apply (fold_left_commute consolidate_up (fun k => 1 <= k <= 14)).
    + intros a x y Hx Hy. apply consolidate_up_commute; assumption.
    + apply Hp.
    + apply range_keys_in_range; assumption.
  - apply (fold_left_commute consolidate_down (fun k => 1 <= k <= 14)).
    + intros a x y Hx Hy. apply consolidate_down_commute; assumption.
    + apply Hp.
    + apply range_keys_in_range; assumption.
Qed.

Lemma Forall_shift_Val (d k : Z) (v : list ChordTone) :
  -128 <= k + d <= 127 ->
  Forall (fun e => tone_Val e = k) v ->
  Forall (fun e => tone_Val e = k + d) (shift_Val d v).
Proof.
  intros Hr H. unfold shift_Val. rewrite List.Forall_forall in *.
  intros e He. apply in_map_iff in He as (s & <- & Hs). simpl.
  rewrite (H s Hs). apply wrap8_small, Hr.
Qed.

Lemma wk_move_key (t : gmap Z (list ChordTone)) (k d : Z) :
  well_keyed t -> 1 <= k <= 14 -> 1 <= k + d <= 14 -> well_keyed (move_key t k d).
Proof.
  intros Ht Hk Hkd. unfold move_key.
  rewrite (wrap8_small (k + d)) by lia.
  apply wk_insert; [| exact Hk | constructor].
  apply wk_insert; [exact Ht | exact Hkd |].
  apply Forall_app. split; [apply wk_lookup_total, Ht |].
  apply Forall_shift_Val; [lia | apply wk_lookup_total, Ht].
Qed.

Lemma wk_consolidate (o : Order) (hs : bool) (t : gmap Z (list ChordTone)) :
  Order_ok o -> well_keyed t -> well_keyed (consolidate o hs t).
Proof.
  intros Ho Ht. unfold consolidate. destruct hs.
  - apply (fold_left_invariant consolidate_up (fun k => 1 <= k <= 14) well_keyed).
    + intros a k Hk Ha. unfold consolidate_up.
      destruct ((k <? 7) && negb (k =? 5)) eqn:E1; [apply wk_move_key; lia || assumption |].
      destruct ((k =? 12) || (k =? 14)) eqn:E2; [apply wk_move_key; lia || assumption |].
      exact Ha.
    + apply range_keys_in_range; assumption.
    + exact Ht.
  - apply (fold_left_invariant consolidate_down (fun k => 1 <= k <= 14) well_keyed).
    + intros a k Hk Ha. unfold consolidate_down.
      destruct (7 <? k) eqn:E1; [apply wk_move_key; lia || assumption | exact Ha].
    + apply range_keys_in_range; assumption.
    + exact Ht.
Qed.
(** ** Canonicalize: de-duplication and the demoted suspension *)

Lemma In_elements_list_to_set (l : list ChordTone) (x : ChordTone) :
  In x (elements (list_to_set l : gset ChordTone)) <-> In x l.
Proof.
  rewrite <- !list_elem_of_In, elem_of_elements, elem_of_list_to_set. reflexivity.
Qed.

Lemma Forall_perm_dedup (o : Order) (k : Z) (P : ChordTone -> Prop) (l : list ChordTone) :
  Order_ok o -> Forall P l ->
  Forall P (ord_set o k (elements (list_to_set l : gset ChordTone))).
Proof.
  intros (_ & Hs & _) H. rewrite List.Forall_forall in *. intros x Hx.
  apply H, In_elements_list_to_set.
  eapply Permutation_in; [apply Hs | exact Hx].
Qed.

Lemma wk_dedup_key (o : Order) (t : gmap Z (list ChordTone)) (k : Z) :
  Order_ok o -> well_keyed t -> 1 <= k <= 14 -> well_keyed (dedup_key o t k).
Proof.
  intros Ho Ht Hk. unfold dedup_key. apply wk_insert; [exact Ht | exact Hk |].
  apply Forall_perm_dedup; [exact Ho | apply wk_lookup_total, Ht].
Qed.

Lemma wk_dedup (o : Order) (t : gmap Z (list ChordTone)) :
  Order_ok o -> well_keyed t -> well_keyed (dedup o t).
Proof.
  intros Ho Ht. unfold dedup.
  apply (fold_left_invariant (dedup_key o) (fun k => 1 <= k <= 14) well_keyed).
  - intros a k Hk Ha. apply wk_dedup_key; assumption.
  - apply range_keys_in_range; assumption.
  - exact Ht.
Qed.

(** After the loop, every degree the loop has visited holds the distinct
    tones it held before, in some order. *)
Lemma dedup_fold_lookup (o : Order) (l : list Z) :
  Order_ok o -> NoDup l ->
  forall (t : gmap Z (list ChordTone)) (k : Z),
    Permutation (fold_left (dedup_key o) l t !!! k)
                (if decide (k ∈ l)
                 then elements (list_to_set (t !!! k) : gset ChordTone)
                 else t !!! k).
Proof.
  intros Ho. induction l as [| a l IH]; intros Hnd t k; simpl.
  - destruct (decide (k ∈ [])) as [Hin | _]; [| reflexivity].
    apply elem_of_nil in Hin. destruct Hin.
  - apply NoDup_cons in Hnd as [Ha Hnd'].
    rewrite (IH Hnd' (dedup_key o t a) k).
    unfold dedup_key at 1 2.
    destruct (decide (a = k)) as [-> | Hne].
    + rewrite lookup_total_insert_eq.
      destruct (decide (k ∈ l)) as [Hin | _]; [contradiction |].
      destruct (decide (k ∈ k :: l)) as [_ | Hn]; [| exfalso; apply Hn; left].
      destruct Ho as (_ & Hs & _). apply Hs.
    + rewrite lookup_total_insert_ne by exact Hne.
      destruct (decide (k ∈ l)) as [Hin | Hnin].
      * destruct (decide (k ∈ a :: l)) as [_ | Hn]; [reflexivity |].
        exfalso. apply Hn. right. exact Hin.
      * destruct (decide (k ∈ a :: l)) as [Hin | _]; [| reflexivity].
        apply elem_of_cons in Hin as [-> | Hin]; contradiction.
Qed.

Lemma map_fst_fmap {A B : Type} (l : list (A * B)) : List.map fst l = l.*1.
Proof. induction l as [| x l IH]; simpl; [reflexivity | f_equal; exact IH]. Qed.

Lemma NoDup_keys (t : gmap Z (list ChordTone)) : NoDup (List.map fst (map_to_list t)).
Proof. rewrite map_fst_fmap. apply NoDup_fst_map_to_list. Qed.

Lemma NoDup_range_keys (o : Order) (site : nat) (t : gmap Z (list ChordTone)) :
  Order_ok o -> NoDup (range_keys o site t).
Proof.
  intros [Hk _]. unfold range_keys. rewrite (Hk site). apply NoDup_keys.
Qed.

Lemma lookup_total_not_key (t : gmap Z (list ChordTone)) (k : Z) :
  ~ In k (List.map fst (map_to_list t)) -> t !!! k = [].
Proof.
  intros Hn. rewrite lookup_total_alt.
  destruct (t !! k) as [v |] eqn:H; [| reflexivity].
  exfalso. apply Hn. apply in_map_iff. exists (k, v). split; [reflexivity |].
  apply list_elem_of_In, elem_of_map_to_list, H.
Qed.

Lemma dedup_lookup (o : Order) (t : gmap Z (list ChordTone)) (k : Z) :
  Order_ok o ->
  Permutation (dedup o t !!! k) (elements (list_to_set (t !!! k) : gset ChordTone)).
Proof.
  intros Ho. unfold dedup.
  rewrite (dedup_fold_lookup o _ Ho (NoDup_range_keys o 2 t Ho) t k).
  destruct (decide (k ∈ range_keys o 2 t)) as [_ | Hn]; [reflexivity |].
  assert (Hnil : t !!! k = []).
  { apply lookup_total_not_key. intros Hin. apply Hn. apply list_elem_of_In.
    destruct Ho as [Hk _]. unfold range_keys.
    eapply Permutation_in; [symmetry; apply Hk | exact Hin]. }
  rewrite Hnil. simpl. rewrite elements_empty. reflexivity.
Qed.

(** The tone chosen for demotion: a natural one if there is one,
    otherwise one of least accidental. *)
Lemma pick_toDemote_spec (all rest pre : list ChordTone) (td : option nat) :
  all = (pre ++ rest)%list ->
  all <> [] ->
  (forall y, In y pre -> tone_Acc y <> Natural) ->
  match td with
  | None => pre = []
  | Some j => (j < List.length pre)%nat /\
              forall y, In y pre -> tone_Acc (nth j all (mkTone 0 0)) <= tone_Acc y
  end ->
  exists i, pick_toDemote all rest (List.length pre) td = Some i /\
            (i < List.length all)%nat /\
            (tone_Acc (nth i all (mkTone 0 0)) = Natural \/
             ((forall y, In y all -> tone_Acc y <> Natural) /\
              forall y, In y all -> tone_Acc (nth i all (mkTone 0 0)) <= tone_Acc y)).
Proof.
  revert pre td. induction rest as [| tn rest IH]; intros pre td Hall Hne Hpre Htd.
  - rewrite app_nil_r in Hall. subst all. simpl.
    destruct td as [j |]; [| contradiction].
    destruct Htd as [Hj Hmin]. exists j. split; [reflexivity |]. split; [exact Hj |].
    right. split; assumption.
  - simpl. destruct (tone_Acc tn =? Natural) eqn:En.
    + exists (List.length pre). split; [reflexivity |].
      apply Z.eqb_eq in En. subst all. split.
      * rewrite length_app. simpl. lia.
      * left. rewrite nth_middle. exact En.
    + apply Z.eqb_neq in En.
      assert (Hall' : all = ((pre ++ [tn]) ++ rest)%list)
        by (rewrite <- app_assoc; exact Hall).
      assert (Hlen : List.length (pre ++ [tn]) = S (List.length pre))
        by (rewrite length_app; simpl; lia).
      assert (Hpre' : forall y, In y (pre ++ [tn]) -> tone_Acc y <> Natural).
      { intros y Hy. apply in_app_or in Hy as [Hy | [<- | []]]; auto. }
      assert (Hnth : nth (List.length pre) all (mkTone 0 0) = tn)
        by (subst all; apply nth_middle).
      destruct td as [j |].
      * destruct Htd as [Hj Hmin].
        destruct (tone_Acc tn <? tone_Acc (nth j all (mkTone 0 0))) eqn:El.
        -- apply Z.ltb_lt in El. rewrite <- Hlen.
           apply (IH (pre ++ [tn])%list (Some (List.length pre))); auto.
           split; [lia |]. intros y Hy. rewrite Hnth.
           apply in_app_or in Hy as [Hy | [<- | []]]; [| lia].
           specialize (Hmin y Hy). lia.
        -- apply Z.ltb_ge in El. rewrite <- Hlen.
           apply (IH (pre ++ [tn])%list (Some j)); auto.
           split; [lia |]. intros y Hy.
           apply in_app_or in Hy as [Hy | [<- | []]]; [apply Hmin, Hy | exact El].
      * subst pre. simpl in *. 
        apply (IH [tn] (Some 0%nat)); auto.
        split; [simpl; lia |]. intros y [<- | []]. rewrite Hnth. lia.
Qed.

Lemma nth_take_drop (l : list ChordTone) (i : nat) :
  (i < List.length l)%nat ->
  Permutation l (nth i l (mkTone 0 0) :: (take i l ++ drop (S i) l)).
Proof.
  intros Hi.
  destruct (lookup_lt_is_Some_2 l i Hi) as [x Hx].
  rewrite nth_lookup, Hx. simpl.
  rewrite <- (take_drop_middle l i x Hx) at 1.
  symmetry. apply Permutation_middle.
Qed.
Lemma demote_lookup (t : gmap Z (list ChordTone)) (hi lo : Z) :
  hi <> lo -> t !!! hi <> [] ->
  exists i, (i < List.length (t !!! hi))%nat /\
    pick_toDemote (t !!! hi) (t !!! hi) 0 None = Some i /\
    (tone_Acc (nth i (t !!! hi) (mkTone 0 0)) = Natural \/
     ((forall y, In y (t !!! hi) -> tone_Acc y <> Natural) /\
      forall y, In y (t !!! hi) ->
                tone_Acc (nth i (t !!! hi) (mkTone 0 0)) <= tone_Acc y)) /\
    forall k, demote t hi lo !!! k =
              if decide (k = hi) then (take i (t !!! hi) ++ drop (S i) (t !!! hi))%list
              else if decide (k = lo)
                   then [mkTone lo (tone_Acc (nth i (t !!! hi) (mkTone 0 0)))]
                   else t !!! k.
Proof.
  intros Hne Hnil.
  destruct (pick_toDemote_spec (t !!! hi) (t !!! hi) [] None) as (i & Hp & Hi & Hs);
    [reflexivity | exact Hnil | intros y [] | reflexivity |].
  simpl in Hp. exists i. split; [exact Hi |]. split; [exact Hp |]. split; [exact Hs |].
  intros k. unfold demote. rewrite Hp.
  rewrite !lookup_total_insert. repeat case_decide; congruence.
Qed.

Lemma demote_same_tones (t1 t2 : gmap Z (list ChordTone)) (hi lo : Z) :
  hi <> lo -> well_keyed t1 -> well_keyed t2 -> same_tones t1 t2 ->
  t1 !!! hi <> [] ->
  same_tones (demote t1 hi lo) (demote t2 hi lo).
Proof.
  intros Hne W1 W2 Hs Hnil1.
  assert (Hp : Permutation (t1 !!! hi) (t2 !!! hi)) by apply Hs.
  assert (Hnil2 : t2 !!! hi <> []).
  { intros E. rewrite E in Hp. apply Permutation_sym, Permutation_nil in Hp.
    contradiction. }
  destruct (demote_lookup t1 hi lo Hne Hnil1) as (i1 & Hi1 & _ & Hc1 & Hl1).
  destruct (demote_lookup t2 hi lo Hne Hnil2) as (i2 & Hi2 & _ & Hc2 & Hl2).
  set (l1 := t1 !!! hi) in *. set (l2 := t2 !!! hi) in *.
  set (x1 := nth i1 l1 (mkTone 0 0)) in *. set (x2 := nth i2 l2 (mkTone 0 0)) in *.
  assert (Hin1 : In x1 l1) by (apply nth_In; exact Hi1).
  assert (Hin2 : In x2 l2) by (apply nth_In; exact Hi2).
  assert (Hin12 : In x1 l2) by (eapply Permutation_in; [exact Hp | exact Hin1]).
  assert (Hin21 : In x2 l1) by (eapply Permutation_in; [symmetry; exact Hp | exact Hin2]).
  assert (Hacc : tone_Acc x1 = tone_Acc x2).
  { destruct Hc1 as [Hn1 | [Hno1 Hmin1]], Hc2 as [Hn2 | [Hno2 Hmin2]].
    - congruence.
    - exfalso. apply (Hno2 x1 Hin12), Hn1.
    - exfalso. apply (Hno1 x2 Hin21), Hn2.
    - specialize (Hmin1 x2 Hin21). specialize (Hmin2 x1 Hin12). lia. }
  assert (Hx : x1 = x2).
  { pose proof (wk_lookup_total t1 hi W1) as F1. fold l1 in F1.
    pose proof (wk_lookup_total t2 hi W2) as F2. fold l2 in F2.
    rewrite List.Forall_forall in F1, F2.
    specialize (F1 x1 Hin1). specialize (F2 x2 Hin2).
    destruct x1 as [v1 a1], x2 as [v2 a2]. simpl in *. congruence. }
  intros k. rewrite Hl1, Hl2.
  destruct (decide (k = hi)) as [_ | _].
  - apply (Permutation_cons_inv (a := x1)).
    etransitivity; [symmetry; apply (nth_take_drop l1 i1 Hi1) |].
    etransitivity; [exact Hp |]. rewrite Hx. apply (nth_take_drop l2 i2 Hi2).
  - destruct (decide (k = lo)); [rewrite Hacc; reflexivity | apply Hs].
Qed.

Lemma wk_demote (t : gmap Z (list ChordTone)) (hi lo : Z) :
  well_keyed t -> 1 <= hi <= 14 -> 1 <= lo <= 14 -> well_keyed (demote t hi lo).
Proof.
  intros Ht Hhi Hlo. unfold demote.
  destruct (pick_toDemote (t !!! hi) (t !!! hi) 0 None) as [i |]; [| exact Ht].
  apply wk_insert; [| exact Hhi |].
  - apply wk_insert; [exact Ht | exact Hlo | repeat constructor].
  - pose proof (wk_lookup_total t hi Ht) as F.
    apply Forall_app. split; [apply Forall_take, F | apply Forall_drop, F].
Qed.

Lemma t_len_pos (t : gmap Z (list ChordTone)) (k : Z) :
  (0 <? t_len t k) = true -> t !!! k <> [].
Proof.
  unfold t_len, zlen. intros H E. rewrite E in H. discriminate.
Qed.

Lemma t_len_same (t1 t2 : gmap Z (list ChordTone)) (k : Z) :
  same_tones t1 t2 -> t_len t1 k = t_len t2 k.
Proof.
  intros Hs. unfold t_len, zlen. rewrite (Permutation_length (Hs k)). reflexivity.
Qed.

Lemma susDemote_same_tones (hs : bool) (tr : Z) (t1 t2 : gmap Z (list ChordTone)) :
  well_keyed t1 -> well_keyed t2 -> same_tones t1 t2 ->
  same_tones (susDemote hs tr t1) (susDemote hs tr t2).
Proof.
  intros W1 W2 Hs. unfold susDemote.
  destruct (hs && (tr =? Sus)); [| exact Hs].
  rewrite <- (t_len_same t1 t2 11 Hs), <- (t_len_same t1 t2 9 Hs).
  destruct (0 <? t_len t1 11) eqn:E11.
  - apply demote_same_tones; try assumption; [lia | apply t_len_pos, E11].
  - destruct (0 <? t_len t1 9) eqn:E9; [| exact Hs].
    apply demote_same_tones; try assumption; [lia | apply t_len_pos, E9].
Qed.

Lemma wk_susDemote (hs : bool) (tr : Z) (t : gmap Z (list ChordTone)) :
  well_keyed t -> well_keyed (susDemote hs tr t).
Proof.
  intros Ht. unfold susDemote.
  destruct (hs && (tr =? Sus)); [| exact Ht].
  destruct (0 <? t_len t 11); [apply wk_demote; lia || assumption |].
  destruct (0 <? t_len t 9); [apply wk_demote; lia || assumption | exact Ht].
Qed.

Lemma susDemote_lookup_5 (hs : bool) (tr : Z) (t : gmap Z (list ChordTone)) :
  susDemote hs tr t !!! 5 = t !!! 5.
Proof.
  unfold susDemote.
  destruct (hs && (tr =? Sus)); [| reflexivity].
  destruct (0 <? t_len t 11).
  - unfold demote. destruct (pick_toDemote _ _ _ _); [| reflexivity].
    rewrite !lookup_total_insert_ne by lia. reflexivity.
  - destruct (0 <? t_len t 9); [| reflexivity].
    unfold demote. destruct (pick_toDemote _ _ _ _); [| reflexivity].
    rewrite !lookup_total_insert_ne by lia. reflexivity.
Qed.

Lemma dedup_same_tones (o1 o2 : Order) (t : gmap Z (list ChordTone)) :
  Order_ok o1 -> Order_ok o2 -> same_tones (dedup o1 t) (dedup o2 t).
Proof.
  intros H1 H2 k. rewrite (dedup_lookup o1 t k H1), (dedup_lookup o2 t k H2).
  reflexivity.
Qed.

(** ** Canonicalize: the flattened tones *)

Lemma flat_map_perm {A B : Type} (f : A -> list B) (l1 l2 : list A) :
  Permutation l1 l2 -> Permutation (flat_map f l1) (flat_map f l2).
Proof.
  induction 1 as [| x l1 l2 Hp IH | x y l | l1 l2 l3 Hp1 IH1 Hp2 IH2]; simpl.
  - reflexivity.
  - apply Permutation_app_head, IH.
  - rewrite !app_assoc. apply Permutation_app_tail, Permutation_app_comm.
  - etransitivity; eassumption.
Qed.

Lemma flat_map_nil {A B : Type} (f : A -> list B) (l : list A) :
  (forall x, In x l -> f x = []) -> flat_map f l = [].
Proof.
  induction l as [| x l IH]; intros H; simpl; [reflexivity |].
  rewrite (H x (or_introl eq_refl)), IH; [reflexivity |].
  intros y Hy. apply H. right. exact Hy.
Qed.

(** Summing over the keys present or over any duplicate-free list that
    contains them is the same when absent keys contribute nothing. *)
Lemma flat_map_restrict {B : Type} (f : Z -> list B) (ks : list Z) :
  List.NoDup ks ->
  forall R, List.NoDup R -> (forall k, In k ks -> In k R) ->
            (forall k, In k R -> ~ In k ks -> f k = []) ->
            Permutation (flat_map f ks) (flat_map f R).
Proof.
  induction 1 as [| a ks Ha Hnd IH]; intros R HR Hsub Hnil.
  - simpl. rewrite flat_map_nil; [reflexivity |].
    intros x Hx. apply Hnil; [exact Hx | intros []].
  - destruct (in_split a R (Hsub a (or_introl eq_refl))) as (R1 & R2 & ->).
    assert (HR' : List.NoDup (R1 ++ R2)) by (eapply NoDup_remove_1; exact HR).
    assert (HaR : ~ In a (R1 ++ R2)) by (eapply NoDup_remove_2; exact HR).
    rewrite (flat_map_perm f (R1 ++ a :: R2) (a :: R1 ++ R2))
      by (symmetry; apply Permutation_middle).
    simpl. apply Permutation_app_head. apply IH; [exact HR' | |].
    + intros k Hk. specialize (Hsub k (or_intror Hk)).
      apply in_app_or in Hsub as [H1 | [<- | H2]];
        [apply in_or_app; left; exact H1 | contradiction | apply in_or_app; right; exact H2].
    + intros k Hk Hnk. apply Hnil.
      * apply in_app_or in Hk as [H1 | H2]; apply in_or_app;
          [left; exact H1 | right; right; exact H2].
      * intros [<- | Hk']; [apply HaR, Hk | apply Hnk, Hk'].
Qed.

Lemma flatten_all_degrees (o : Order) (t : gmap Z (list ChordTone)) :
  Order_ok o -> well_keyed t ->
  Permutation (flatten o t) (flat_map (fun k => t !!! k) all_degrees).
Proof.
  intros Ho Ht. unfold flatten. rewrite <- flat_map_concat_map.
  assert (Hp : Permutation (range_keys o 3 t) (List.map fst (map_to_list t))).
  { destruct Ho as [Hk _]. apply Hk. }
  rewrite (flat_map_perm _ _ _ Hp).
  apply flat_map_restrict.
  - apply NoDup_ListNoDup, NoDup_keys.
  - unfold all_degrees. repeat constructor; simpl; lia.
  - intros k Hk. pose proof (keys_in_range t Ht) as H.
    rewrite List.Forall_forall in H. specialize (H k Hk).
    unfold all_degrees. simpl. lia.
  - intros k _ Hn. apply lookup_total_not_key, Hn.
Qed.

Lemma flat_map_same_tones (t1 t2 : gmap Z (list ChordTone)) (l : list Z) :
  same_tones t1 t2 ->
  Permutation (flat_map (fun k => t1 !!! k) l) (flat_map (fun k => t2 !!! k) l).
Proof.
  intros Hs. induction l as [| k l IH]; simpl; [reflexivity |].
  apply Permutation_app; [apply Hs | exact IH].
Qed.

Lemma flatten_Val_range (o : Order) (t : gmap Z (list ChordTone)) :
  Order_ok o -> well_keyed t ->
  Forall (fun e => 1 <= tone_Val e <= 14) (flatten o t).
Proof.
  intros Ho Ht. rewrite List.Forall_forall. intros e He.
  unfold flatten in He. apply in_concat in He as (v & Hv & Hev).
  apply in_map_iff in Hv as (k & <- & Hk).
  pose proof (range_keys_in_range o 3 t Ho Ht) as Hr.
  rewrite List.Forall_forall in Hr. specialize (Hr k Hk).
  pose proof (wk_lookup_total t k Ht) as F. rewrite List.Forall_forall in F.
  rewrite (F e Hev). exact Hr.
Qed.

Lemma flatten_In (o : Order) (t : gmap Z (list ChordTone)) (e : ChordTone) (d : Z) :
  well_keyed t -> tone_Val e = d -> In e (flatten o t) -> In e (t !!! d).
Proof.
  intros Ht Hd He. unfold flatten in He. apply in_concat in He as (v & Hv & Hev).
  apply in_map_iff in Hv as (k & <- & Hk).
  pose proof (wk_lookup_total t k Ht) as F. rewrite List.Forall_forall in F.
  rewrite <- Hd, (F e Hev). exact Hev.
Qed.
(** ** Sorting *)

Section SortFacts.
Context {A : Type} (less : A -> A -> bool).
Hypothesis less_asym : forall x y, less x y = true -> less y x = false.
Hypothesis le_trans :
  forall x y z, less y x = false -> less z y = false -> less z x = false.

Lemma insert_sorted_perm (x : A) (l : list A) :
  Permutation (insert_sorted less x l) (x :: l).
Proof.
  induction l as [| y l IH]; simpl; [reflexivity |].
  destruct (less x y); [reflexivity |].
  rewrite IH. apply perm_swap.
Qed.

Lemma insertion_sort_perm (l : list A) : Permutation (insertion_sort less l) l.
Proof.
  induction l as [| x l IH]; simpl; [reflexivity |].
  rewrite insert_sorted_perm, IH. reflexivity.
Qed.

Lemma insert_sorted_sorted (x : A) (l : list A) :
  StronglySorted (fun a b => less b a = false) l ->
  StronglySorted (fun a b => less b a = false) (insert_sorted less x l).
Proof.
  induction 1 as [| y l Hs IH Hy]; simpl.
  - constructor; constructor.
  - destruct (less x y) eqn:E.
    + constructor; [constructor; assumption |].
      constructor; [apply less_asym, E |].
      rewrite List.Forall_forall in *. intros z Hz.
      apply (le_trans x y z); [apply less_asym, E | apply Hy, Hz].
    + constructor; [exact IH |].
      rewrite List.Forall_forall in *. intros z Hz.
      apply (Permutation_in _ (insert_sorted_perm x l)) in Hz.
      destruct Hz as [<- | Hz]; [exact E | apply Hy, Hz].
Qed.

Lemma insertion_sort_sorted (l : list A) :
  StronglySorted (fun a b => less b a = false) (insertion_sort less l).
Proof.
  induction l as [| x l IH]; simpl; [constructor | apply insert_sorted_sorted, IH].
Qed.

Lemma less_irrefl (x : A) : less x x = false.
Proof. destruct (less x x) eqn:E; [| reflexivity]. rewrite (less_asym x x E) in E. discriminate. Qed.

(** Where no two different elements rank equal, a list has one sorted
    arrangement. *)
Lemma sorted_perm_unique (P : A -> Prop) :
  (forall x y, P x -> P y -> less y x = false -> less x y = false -> x = y) ->
  forall l1 l2,
    StronglySorted (fun a b => less b a = false) l1 ->
    StronglySorted (fun a b => less b a = false) l2 ->
    Permutation l1 l2 -> Forall P l1 -> l1 = l2.
Proof.
  intros Hanti. induction l1 as [| x l1 IH]; intros l2 S1 S2 Hp HP.
  - apply Permutation_nil in Hp. subst. reflexivity.
  - destruct l2 as [| y l2].
    { apply Permutation_sym, Permutation_nil in Hp. discriminate. }
    apply StronglySorted_inv in S1 as [S1 Hx].
    apply StronglySorted_inv in S2 as [S2 Hy].
    rewrite List.Forall_forall in Hx, Hy, HP.
    assert (Hyin : In y (x :: l1))
      by (eapply Permutation_in; [symmetry; exact Hp | left; reflexivity]).
    assert (Hxin : In x (y :: l2))
      by (eapply Permutation_in; [exact Hp | left; reflexivity]).
    assert (Hxy : less y x = false).
    { destruct Hyin as [<- | Hyin]; [apply less_irrefl | apply Hx, Hyin]. }
    assert (Hyx : less x y = false).
    { destruct Hxin as [<- | Hxin]; [apply less_irrefl | apply Hy, Hxin]. }
    assert (Heq : x = y).
    { apply Hanti; [apply HP; left; reflexivity | apply HP, Hyin | exact Hxy | exact Hyx]. }
    subst y. f_equal. apply IH; [exact S1 | exact S2 | |].
    + eapply Permutation_cons_inv. exact Hp.
    + rewrite List.Forall_forall. intros z Hz. apply HP. right. exact Hz.
Qed.
End SortFacts.

Lemma tones_Less_asym (x y : ChordTone) : tones_Less x y = true -> tones_Less y x = false.
Proof.
  unfold tones_Less, Accidental_Offset.
  destruct (toneOrder (tone_Val x) <? toneOrder (tone_Val y)) eqn:E1;
    destruct (toneOrder (tone_Val y) <? toneOrder (tone_Val x)) eqn:E2;
    destruct (toneOrder (tone_Val x) =? toneOrder (tone_Val y)) eqn:E3;
    destruct (toneOrder (tone_Val y) =? toneOrder (tone_Val x)) eqn:E4;
    try discriminate; try reflexivity; lia.
Qed.

Lemma tones_le_trans (x y z : ChordTone) :
  tones_Less y x = false -> tones_Less z y = false -> tones_Less z x = false.
Proof.
  unfold tones_Less, Accidental_Offset.
  destruct (toneOrder (tone_Val y) <? toneOrder (tone_Val x)) eqn:E1;
    destruct (toneOrder (tone_Val z) <? toneOrder (tone_Val y)) eqn:E2;
    destruct (toneOrder (tone_Val z) <? toneOrder (tone_Val x)) eqn:E3;
    destruct (toneOrder (tone_Val y) =? toneOrder (tone_Val x)) eqn:E4;
    destruct (toneOrder (tone_Val z) =? toneOrder (tone_Val y)) eqn:E5;
    destruct (toneOrder (tone_Val z) =? toneOrder (tone_Val x)) eqn:E6;
    try discriminate; try reflexivity; lia.
Qed.

(** On valid tone values the rank of [tones.Less] tells tones apart. *)
Lemma tones_le_antisym (x y : ChordTone) :
  1 <= tone_Val x <= 14 -> 1 <= tone_Val y <= 14 ->
  tones_Less y x = false -> tones_Less x y = false -> x = y.
Proof.
  intros Hx Hy. unfold tones_Less, Accidental_Offset, toneOrder, MaxInt8.
  destruct x as [vx ax], y as [vy ay]. simpl in *.
  destruct (vx =? 5) eqn:Ex; destruct (vy =? 5) eqn:Ey;
    repeat match goal with
           | |- context [?a <? ?b] => destruct (Z.ltb_spec a b)
           | |- context [?a =? ?b] => destruct (Z.eqb_spec a b)
           end; intros Hl1 Hl2; try discriminate; f_equal; lia.
Qed.

(** ** Canonicalize does not depend on the orders Go leaves open *)

Lemma Order_id_ok : Order_ok Order_id.
Proof. repeat split; intros; reflexivity. Qed.

Lemma Order_rev_ok : Order_ok Order_rev.
Proof. repeat split; intros; simpl; symmetry; apply Permutation_rev. Qed.

Lemma wk_final_map (o : Order) (ch : Chord) :
  Order_ok o -> Forall (fun e => 1 <= tone_Val e <= 14) (ExtraTones ch) ->
  well_keyed (final_map o ch).
Proof.
  intros Ho H. unfold final_map.
  apply wk_susDemote, wk_dedup, wk_consolidate, wk_rewrite_steps; assumption.
Qed.

Lemma final_map_same_tones (o1 o2 : Order) (ch : Chord) :
  Order_ok o1 -> Order_ok o2 ->
  Forall (fun e => 1 <= tone_Val e <= 14) (ExtraTones ch) ->
  same_tones (final_map o1 ch) (final_map o2 ch).
Proof.
  intros H1 H2 H. unfold final_map.
  pose proof (wk_rewrite_steps ch H) as W.
  rewrite (consolidate_order o1 o2 _ _ H1 H2 W).
  apply susDemote_same_tones.
  - apply wk_dedup, wk_consolidate; assumption.
  - apply wk_dedup, wk_consolidate; assumption.
  - apply dedup_same_tones; assumption.
Qed.

Lemma canonical_tones_perm (o : Order) (ch : Chord) :
  Order_ok o -> Forall (fun e => 1 <= tone_Val e <= 14) (ExtraTones ch) ->
  Permutation (sort_Sort tones_Less (ord_sort o) (flatten o (final_map o ch)))
              (flat_map (fun k => final_map o ch !!! k) all_degrees).
Proof.
  intros Ho H. unfold sort_Sort.
  rewrite insertion_sort_perm.
  destruct Ho as (Hk & Hs & Hsort). rewrite Hsort.
  apply flatten_all_degrees; [repeat split; assumption |].
  apply wk_final_map; [repeat split; assumption | exact H].
Qed.

(** C7, as the code has it.  Two chords with equal Root, Triad,
    ExtraTones, Bass and canonical flag, whose tones have values within
    1..14, get the same result from [Canonicalize], down to the order of
    ExtraTones, whatever the order of each range over the degree map and
    over the de-duplication sets, and whichever sorted arrangement the
    unstable sort returns. *)
Theorem Canonicalize_order_independent (o1 o2 : Order) (c1 c2 : Chord) :
  Order_ok o1 -> Order_ok o2 ->
  Root c1 = Root c2 -> Triad c1 = Triad c2 -> ExtraTones c1 = ExtraTones c2 ->
  Bass c1 = Bass c2 -> canonical c1 = canonical c2 ->
  Forall (fun e => 1 <= tone_Val e <= 14) (ExtraTones c1) ->
  Canonicalize_with o1 c1 = Canonicalize_with o2 c2.
Proof.
  intros H1 H2 Hr Ht He Hb Hc Hv.
  assert (Heq : c1 = c2) by (destruct c1, c2; simpl in *; congruence).
  subst c2. clear Hr Ht He Hb Hc.
  unfold Canonicalize_with. destruct (canonical c1); [reflexivity |].
  apply (f_equal (fun es => mkChord (Root c1) (c_triad (rewrite_steps c1)) es
                                     (Bass c1) true)).
  apply (sorted_perm_unique tones_Less tones_Less_asym
           (fun e => 1 <= tone_Val e <= 14)).
  - intros x y Hx Hy. apply tones_le_antisym; assumption.
  - apply insertion_sort_sorted; [apply tones_Less_asym | apply tones_le_trans].
  - apply insertion_sort_sorted; [apply tones_Less_asym | apply tones_le_trans].
  - rewrite (canonical_tones_perm o1 c1 H1 Hv), (canonical_tones_perm o2 c1 H2 Hv).
    apply flat_map_same_tones, final_map_same_tones; assumption.
  - unfold sort_Sort.
    assert (Hp : Permutation (insertion_sort tones_Less
                                (ord_sort o1 (flatten o1 (final_map o1 c1))))
                             (flatten o1 (final_map o1 c1))).
    { rewrite insertion_sort_perm. destruct H1 as (_ & _ & Hs). apply Hs. }
    pose proof (flatten_Val_range o1 (final_map o1 c1) H1 (wk_final_map o1 c1 H1 Hv)) as F.
    rewrite List.Forall_forall in *. intros e He. apply F.
    eapply Permutation_in; [exact Hp | exact He].
Qed.

Lemma Canonicalize_order_independent_witness :
  Canonicalize_with Order_id
    (mkChord (mkNote C_ Natural) Sus
       [mkTone 7 Natural; mkTone 9 Flat; mkTone 2 Natural; mkTone 9 Natural;
        mkTone 11 Sharp; mkTone 4 Sharp] noNote false)
  = Canonicalize_with Order_rev
      (mkChord (mkNote C_ Natural) Sus
         [mkTone 7 Natural; mkTone 9 Flat; mkTone 2 Natural; mkTone 9 Natural;
          mkTone 11 Sharp; mkTone 4 Sharp] noNote false).
Proof.
  apply (Canonicalize_order_independent Order_id Order_rev);
    try reflexivity.
  - exact Order_id_ok.
  - exact Order_rev_ok.
  - repeat constructor; simpl; lia.
Defined.

(** ** Canonicalize: a minor triad with a flat 5 *)

Lemma collect_fold_triad (l : list ChordTone) (st : canon) :
  c_triad (fold_left collect_one l st) = c_triad st.
Proof.
  revert st. induction l as [| e l IH]; intros st; simpl; [reflexivity |].
  rewrite IH. unfold collect_one.
  repeat match goal with
         | |- context [if ?b then _ else _] => destruct b
         end; reflexivity.
Qed.

Lemma collect_fold_lookup (l : list ChordTone) (st : canon) (k : Z) :
  c_t (fold_left collect_one l st) !!! k
  = (c_t st !!! k ++ List.filter (filed k) l)%list.
Proof.
  revert st. induction l as [| e l IH]; intros st; simpl.
  - rewrite app_nil_r. reflexivity.
  - rewrite IH. unfold collect_one, filed.
    destruct (((tone_Val e =? 7) && (tone_Acc e =? DblSharp))
              || ((tone_Val e =? 2) && (tone_Acc e =? DblFlat))) eqn:E1; simpl.
    { rewrite andb_false_r. reflexivity. }
    destruct ((tone_Val e =? 9) && (tone_Acc e =? DblFlat)) eqn:E2; simpl.
    { rewrite andb_false_r. reflexivity. }
    rewrite andb_true_r.
    assert (Hl : (<[tone_Val e := (c_t st !!! tone_Val e) ++ [e]]> (c_t st)) !!! k
                 = if tone_Val e =? k then (c_t st !!! k ++ [e])%list else c_t st !!! k).
    { rewrite lookup_total_insert.
      destruct (Z.eqb_spec (tone_Val e) k) as [-> | Hne]; case_decide; congruence. }
    destruct (7 <? tone_Val e); [| destruct (tone_Val e =? 7)]; simpl; rewrite Hl;
      destruct (tone_Val e =? k); rewrite <- ?app_assoc; reflexivity.
Qed.

Lemma collect_fold_hasSeventh (l : list ChordTone) (st : canon) :
  c_hasSeventh (fold_left collect_one l st)
  = c_hasSeventh st || negb (Nat.eqb (List.length (stated_sevenths l)) 0).
Proof.
  revert st. induction l as [| e l IH]; intros st; simpl.
  - rewrite orb_false_r. reflexivity.
  - rewrite IH. unfold collect_one, stated_sevenths. simpl.
    destruct (Z.eqb_spec (tone_Val e) 7) as [E7 | E7];
      destruct (Z.eqb_spec (tone_Acc e) DblSharp) as [Ea | Ea]; simpl.
    + reflexivity.
    + assert (H2 : (tone_Val e =? 2) = false) by (apply Z.eqb_neq; lia).
      assert (H9 : (tone_Val e =? 9) = false) by (apply Z.eqb_neq; lia).
      assert (Hg : (7 <? tone_Val e) = false) by (apply Z.ltb_ge; lia).
      rewrite H2, H9, Hg. simpl. rewrite orb_true_r. reflexivity.
    + repeat match goal with
             | |- context [if ?b then _ else _] => destruct b
             end; reflexivity.
    + repeat match goal with
             | |- context [if ?b then _ else _] => destruct b
             end; reflexivity.
Qed.

Lemma collect_fold_hasNatural (l : list ChordTone) (st : canon) :
  c_hasNaturalSeventh (fold_left collect_one l st) = true ->
  c_hasNaturalSeventh st = true \/ c_hasSeventh (fold_left collect_one l st) = true.
Proof.
  revert st. induction l as [| e l IH]; intros st H; simpl in *; [left; exact H |].
  destruct (IH _ H) as [Hn | Hs]; [| right; exact Hs].
  rewrite collect_fold_hasSeventh.
  unfold collect_one in Hn |- *.
  repeat match goal with
         | |- context [if ?b then _ else _] => destruct b
         | H : context [if ?b then _ else _] |- _ => destruct b
         end; simpl in *; auto.
Qed.

Lemma collect_fold_implied (l : list ChordTone) (st : canon) :
  0 <= c_impliedSeventh st ->
  0 <= c_impliedSeventh (fold_left collect_one l st) /\
  (0 <? c_impliedSeventh (fold_left collect_one l st))
  = (0 <? c_impliedSeventh st) || implies_seventh l.
Proof.
  revert st. induction l as [| e l IH]; intros st H0; simpl.
  - rewrite orb_false_r. split; [exact H0 | reflexivity].
  - assert (Hstep : 0 <= c_impliedSeventh (collect_one st e) /\
                    (0 <? c_impliedSeventh (collect_one st e))
                    = (0 <? c_impliedSeventh st) || (7 <? tone_Val e)).
    { unfold collect_one.
      destruct (((tone_Val e =? 7) && (tone_Acc e =? DblSharp))
                || ((tone_Val e =? 2) && (tone_Acc e =? DblFlat))) eqn:E1.
      { assert (Hg : (7 <? tone_Val e) = false) by (apply Z.ltb_ge; lia).
        rewrite Hg, orb_false_r. split; [exact H0 | reflexivity]. }
      destruct ((tone_Val e =? 9) && (tone_Acc e =? DblFlat)) eqn:E2; simpl.
      { assert (Hg : (7 <? tone_Val e) = true) by (apply Z.ltb_lt; lia).
        rewrite Hg, orb_true_r. split; [lia | apply Z.ltb_lt; lia]. }
      destruct (7 <? tone_Val e) eqn:Hg; simpl.
      - rewrite orb_true_r. split; [lia | apply Z.ltb_lt; lia].
      - rewrite orb_false_r.
        destruct (tone_Val e =? 7); simpl; split; try exact H0; reflexivity. }
    destruct Hstep as [Hs0 Hs1].
    destruct (IH (collect_one st e) Hs0) as [I0 I1].
    split; [exact I0 |]. rewrite I1, Hs1, orb_assoc. reflexivity.
Qed.

(** Proves that a step leaves the tones of a degree it does not write. *)
Ltac step_keeps :=
  cbv zeta;
  repeat match goal with
         | |- context [if ?b then _ else _] => destruct b
         end;
  simpl; unfold t_remove;
  rewrite ?lookup_total_insert_ne, ?lookup_total_alter_ne by lia;
  reflexivity.

(** The steps from "if 7 is just implied" on write the degrees 2, 4, 6,
    7, 9, 11 and 13 only, and change the triad of suspended chords only. *)
Lemma late_steps_lookup (st : canon) (k : Z) :
  k = 5 \/ k = 12 ->
  c_t (step_perfect (step_sus4 (step_dim4 (step_aug6 (step_fdim6 (step_sus
         (step_thirds (step_implied st)))))))) !!! k
  = c_t st !!! k.
Proof.
  intros Hk.
  assert (E1 : c_t (step_implied st) !!! k = c_t st !!! k)
    by (unfold step_implied; step_keeps).
  rewrite <- E1. generalize (step_implied st). clear st E1. intros st.
  assert (E1 : c_t (step_thirds st) !!! k = c_t st !!! k)
    by (unfold step_thirds; step_keeps).
  rewrite <- E1. generalize (step_thirds st). clear st E1. intros st.
  assert (E1 : c_t (step_sus st) !!! k = c_t st !!! k)
    by (unfold step_sus; step_keeps).
  rewrite <- E1. generalize (step_sus st). clear st E1. intros st.
  assert (E1 : c_t (step_fdim6 st) !!! k = c_t st !!! k)
    by (unfold step_fdim6; step_keeps).
  rewrite <- E1. generalize (step_fdim6 st). clear st E1. intros st.
  assert (E1 : c_t (step_aug6 st) !!! k = c_t st !!! k)
    by (unfold step_aug6; step_keeps).
  rewrite <- E1. generalize (step_aug6 st). clear st E1. intros st.
  assert (E1 : c_t (step_dim4 st) !!! k = c_t st !!! k)
    by (unfold step_dim4; step_keeps).
  rewrite <- E1. generalize (step_dim4 st). clear st E1. intros st.
  assert (E1 : c_t (step_sus4 st) !!! k = c_t st !!! k)
    by (unfold step_sus4; step_keeps).
  rewrite <- E1. generalize (step_sus4 st). clear st E1. intros st.
  unfold step_perfect; step_keeps.
Qed.

Ltac triad_kept :=
  cbv zeta;
  repeat match goal with
         | |- context [if ?b then _ else _] => destruct b
         end;
  reflexivity.

Lemma late_steps_triad (st : canon) :
  c_triad st <> Sus ->
  c_triad (step_perfect (step_sus4 (step_dim4 (step_aug6 (step_fdim6 (step_sus
         (step_thirds (step_implied st)))))))) = c_triad st.
Proof.
  intros Hs.
  assert (E1 : c_triad (step_implied st) = c_triad st)
    by (unfold step_implied; triad_kept).
  rewrite <- E1 in Hs |- *. clear E1. revert Hs. generalize (step_implied st). clear st. intros st Hs.
  assert (E1 : c_triad (step_thirds st) = c_triad st)
    by (unfold step_thirds; triad_kept).
  rewrite <- E1 in Hs |- *. clear E1. revert Hs. generalize (step_thirds st). clear st. intros st Hs.
  assert (E1 : c_triad (step_sus st) = c_triad st).
  { unfold step_sus. destruct (Z.eqb_spec (c_triad st) Sus); [contradiction | reflexivity]. }
  rewrite <- E1 in Hs |- *. clear E1. revert Hs. generalize (step_sus st). clear st. intros st Hs.
  assert (E1 : c_triad (step_fdim6 st) = c_triad st)
    by (unfold step_fdim6; triad_kept).
  rewrite <- E1 in Hs |- *. clear E1. revert Hs. generalize (step_fdim6 st). clear st. intros st Hs.
  assert (E1 : c_triad (step_aug6 st) = c_triad st)
    by (unfold step_aug6; triad_kept).
  rewrite <- E1 in Hs |- *. clear E1. revert Hs. generalize (step_aug6 st). clear st. intros st Hs.
  assert (E1 : c_triad (step_dim4 st) = c_triad st)
    by (unfold step_dim4; triad_kept).
  rewrite <- E1 in Hs |- *. clear E1. revert Hs. generalize (step_dim4 st). clear st. intros st Hs.
  assert (E1 : c_triad (step_sus4 st) = c_triad st)
    by (unfold step_sus4; triad_kept).
  rewrite <- E1 in Hs |- *. clear E1. revert Hs. generalize (step_sus4 st). clear st. intros st Hs.
  unfold step_perfect; triad_kept.
Qed.
Lemma stated_sevenths_filed (es : list ChordTone) :
  List.filter (filed 7) es = stated_sevenths es.
Proof.
  unfold stated_sevenths. apply filter_ext. intros e. unfold filed.
  destruct (Z.eqb_spec (tone_Val e) 7) as [E | E]; simpl; [| reflexivity].
  assert (H2 : (tone_Val e =? 2) = false) by (apply Z.eqb_neq; lia).
  assert (H9 : (tone_Val e =? 9) = false) by (apply Z.eqb_neq; lia).
  rewrite H2, H9. simpl. rewrite ?orb_false_r. reflexivity.
Qed.

(** The triad and the tones of degrees 5, 7 and 12 after the steps that
    can settle the triad of a minor chord with a flat 5. *)
Lemma minor_flat5_steps (ch : Chord) :
  Triad ch = Min3 -> In (mkTone 5 Flat) (ExtraTones ch) ->
  let st := step_hdim (step_dim7 (step_major (step_minor (step_fifth (collect ch))))) in
  c_triad st =
    match stated_sevenths (ExtraTones ch) with
    | [] => if implies_seventh (ExtraTones ch) then HDim else Dim3
    | _ :: _ =>
        if forallb (fun s => tone_Acc s =? Flat) (stated_sevenths (ExtraTones ch))
        then FDim else HDim
    end /\
  ~ In (mkTone 5 Flat) (c_t st !!! 5) /\
  c_t st !!! 12 = List.filter (filed 12) (ExtraTones ch).
Proof.
  intros Htr Hin.
  pose proof (collect_fold_triad (ExtraTones ch)
                (mkCanon (Triad ch) ∅ false false
                   (if (Triad ch =? FDim) || (Triad ch =? HDim) then 1 else 0))) as T0.
  pose proof (fun k => collect_fold_lookup (ExtraTones ch)
                (mkCanon (Triad ch) ∅ false false
                   (if (Triad ch =? FDim) || (Triad ch =? HDim) then 1 else 0)) k) as L0.
  pose proof (collect_fold_hasSeventh (ExtraTones ch)
                (mkCanon (Triad ch) ∅ false false
                   (if (Triad ch =? FDim) || (Triad ch =? HDim) then 1 else 0))) as S0.
  pose proof (collect_fold_hasNatural (ExtraTones ch)
                (mkCanon (Triad ch) ∅ false false
                   (if (Triad ch =? FDim) || (Triad ch =? HDim) then 1 else 0))) as N0.
  pose proof (collect_fold_implied (ExtraTones ch)
                (mkCanon (Triad ch) ∅ false false
                   (if (Triad ch =? FDim) || (Triad ch =? HDim) then 1 else 0))) as I0.
  fold (collect ch) in T0, L0, S0, N0, I0.
  rewrite Htr in *. simpl in T0, L0, S0, N0, I0.
  destruct (I0 ltac:(lia)) as [_ I1]. clear I0. simpl in I1.
  assert (L5 : c_t (collect ch) !!! 5 = List.filter (filed 5) (ExtraTones ch))
    by (rewrite L0, lookup_total_empty; reflexivity).
  assert (L7 : c_t (collect ch) !!! 7 = stated_sevenths (ExtraTones ch))
    by (rewrite L0, lookup_total_empty; apply stated_sevenths_filed).
  assert (L12 : c_t (collect ch) !!! 12 = List.filter (filed 12) (ExtraTones ch))
    by (rewrite L0, lookup_total_empty; reflexivity).
  clear L0.
  destruct (collect ch) as [tr t hs hn im]. simpl in *. subst tr.
  assert (Hconv : existsb (fun tn => tone_Acc tn =? Flat)
                    (t_remove t 5 (mkTone 5 Natural) !!! 5) = true).
  { apply existsb_exists. exists (mkTone 5 Flat). split; [| reflexivity].
    unfold t_remove. rewrite lookup_total_insert_eq, L5.
    unfold removeTone. apply filter_In. split; [| reflexivity].
    apply filter_In. split; [exact Hin | reflexivity]. }
  unfold step_fifth. simpl.
  unfold step_minor. simpl. rewrite Hconv. simpl.
  set (t2 := t_remove (t_remove t 5 (mkTone 5 Natural)) 5 (mkTone 5 Flat)).
  assert (T5 : ~ In (mkTone 5 Flat) (t2 !!! 5)).
  { unfold t2, t_remove. rewrite lookup_total_insert_eq. unfold removeTone.
    intros H. apply filter_In in H as [_ H]. discriminate. }
  assert (T7 : t2 !!! 7 = stated_sevenths (ExtraTones ch)).
  { unfold t2, t_remove. rewrite !lookup_total_insert_ne by lia. exact L7. }
  assert (T12 : t2 !!! 12 = List.filter (filed 12) (ExtraTones ch)).
  { unfold t2, t_remove. rewrite !lookup_total_insert_ne by lia. exact L12. }
  rewrite I1, S0.
  destruct (stated_sevenths (ExtraTones ch)) as [| s ss] eqn:Est; simpl in S0 |- *.
  - (* no stated 7th *)
    subst hs.
    assert (Hn : hn = false).
    { destruct hn; [| reflexivity]. destruct (N0 eq_refl); discriminate. }
    subst hn. rewrite orb_false_r.
    destruct (implies_seventh (ExtraTones ch)) eqn:Ei; simpl.
    + unfold step_major, step_dim7, step_hdim. simpl.
      split; [reflexivity |]. split; assumption.
    + unfold step_major, step_dim7, step_hdim. simpl. rewrite I1. simpl.
      split; [reflexivity |]. split; assumption.
  - (* some stated 7th *)
    subst hs. rewrite orb_true_r.
    unfold step_major, step_dim7, step_hdim. simpl. rewrite T7.
    change (forallb (fun s0 => tone_Acc s0 =? Flat) (s :: ss))
      with ((tone_Acc s =? Flat) && forallb (fun s0 => tone_Acc s0 =? Flat) ss).
    destruct ((tone_Acc s =? Flat) && forallb (fun s0 => tone_Acc s0 =? Flat) ss);
      simpl.
    + split; [reflexivity |].
      rewrite !lookup_total_alter_ne by lia. split; assumption.
    + split; [reflexivity |]. split; assumption.
Qed.
Lemma move_key_lookup (t : gmap Z (list ChordTone)) (k d j : Z) :
  move_key t k d !!! j
  = if decide (k = j) then []
    else if decide (wrap8 (k + d) = j) then (t !!! j ++ shift_Val d (t !!! k))%list
         else t !!! j.
Proof.
  unfold move_key. rewrite !lookup_total_insert.
  repeat case_decide; subst; try reflexivity; congruence.
Qed.

Lemma consolidate_keeps_flat5 (o : Order) (hs : bool) (t : gmap Z (list ChordTone)) :
  Order_ok o -> well_keyed t ->
  ~ In (mkTone 5 Flat) (t !!! 5) -> t !!! 12 = [] ->
  ~ In (mkTone 5 Flat) (consolidate o hs t !!! 5).
Proof.
  intros Ho Ht H5 H12.
  assert (Hstep : forall (a : gmap Z (list ChordTone)) (k d : Z),
             1 <= k <= 14 -> ((k <> 5 /\ k + d <> 5 /\ k + d <> 12) \/ (k = 12 /\ d = -7)) ->
             -128 <= k + d <= 127 ->
             ~ In (mkTone 5 Flat) (a !!! 5) /\ a !!! 12 = [] ->
             ~ In (mkTone 5 Flat) (move_key a k d !!! 5) /\ move_key a k d !!! 12 = []).
  { intros a k d Hk Hcase Hr [A5 A12].
    rewrite !move_key_lookup. rewrite (wrap8_small (k + d)) by exact Hr.
    destruct Hcase as [(N5 & N5' & N12') | [-> ->]].
    - repeat case_decide; try lia; split; auto.
    - simpl. rewrite A12. simpl. rewrite app_nil_r.
      repeat case_decide; try lia; split; auto. }
  enough (H : ~ In (mkTone 5 Flat) (consolidate o hs t !!! 5)
              /\ consolidate o hs t !!! 12 = []) by apply H.
  unfold consolidate. destruct hs.
  - apply (fold_left_invariant consolidate_up (fun k => 1 <= k <= 14)
             (fun a => ~ In (mkTone 5 Flat) (a !!! 5) /\ a !!! 12 = [])).
    + intros a k Hk Ha. unfold consolidate_up.
      destruct ((k <? 7) && negb (k =? 5)) eqn:E1.
      { apply Hstep; [exact Hk | left; lia | lia | exact Ha]. }
      destruct ((k =? 12) || (k =? 14)) eqn:E2; [| exact Ha].
      apply Hstep; [exact Hk | | lia | exact Ha].
      destruct (Z.eqb_spec k 12); [right; split; [assumption | reflexivity] | left; lia].
    + apply range_keys_in_range; assumption.
    + split; assumption.
  - apply (fold_left_invariant consolidate_down (fun k => 1 <= k <= 14)
             (fun a => ~ In (mkTone 5 Flat) (a !!! 5) /\ a !!! 12 = [])).
    + intros a k Hk Ha. unfold consolidate_down.
      destruct (7 <? k) eqn:E1; [| exact Ha].
      apply Hstep; [exact Hk | | lia | exact Ha].
      destruct (Z.eqb_spec k 12); [right; split; [assumption | reflexivity] | left; lia].
    + apply range_keys_in_range; assumption.
    + split; assumption.
Qed.

Lemma Canonicalize_with_fresh (o : Order) (ch : Chord) :
  canonical ch = false ->
  Triad (Canonicalize_with o ch) = c_triad (rewrite_steps ch) /\
  ExtraTones (Canonicalize_with o ch)
  = sort_Sort tones_Less (ord_sort o) (flatten o (final_map o ch)).
Proof.
  intros Hc. unfold Canonicalize_with. rewrite Hc. split; reflexivity.
Qed.

Lemma minor_flat5_triad (ch : Chord) :
  Triad ch = Min3 -> In (mkTone 5 Flat) (ExtraTones ch) ->
  c_triad (rewrite_steps ch) =
    match stated_sevenths (ExtraTones ch) with
    | [] => if implies_seventh (ExtraTones ch) then HDim else Dim3
    | _ :: _ =>
        if forallb (fun s => tone_Acc s =? Flat) (stated_sevenths (ExtraTones ch))
        then FDim else HDim
    end.
Proof.
  intros Htr Hin.
  destruct (minor_flat5_steps ch Htr Hin) as (Ht & _ & _).
  cbv zeta in Ht.
  assert (Hns : c_triad (step_hdim (step_dim7 (step_major (step_minor
                   (step_fifth (collect ch)))))) <> Sus).
  { rewrite Ht.
    destruct (stated_sevenths (ExtraTones ch));
      [destruct (implies_seventh (ExtraTones ch)) | destruct (forallb _ _)];
      discriminate. }
  unfold rewrite_steps. rewrite (late_steps_triad _ Hns). exact Ht.
Qed.

Lemma filter_filed_12_nil (l : list ChordTone) :
  Forall (fun e => 1 <= tone_Val e <= 14 /\ tone_Val e <> 12) l ->
  List.filter (filed 12) l = [].
Proof.
  induction l as [| e l IH]; intros Hl; [reflexivity |].
  inversion Hl as [| ? ? [_ He] Hl']; subst. simpl.
  unfold filed at 1. destruct (Z.eqb_spec (tone_Val e) 12); [contradiction |].
  simpl. apply IH, Hl'.
Qed.

Lemma final_map_lookup_5 (o : Order) (ch : Chord) :
  final_map o ch !!! 5
  = dedup o (consolidate o (c_hasSeventh (rewrite_steps ch)) (c_t (rewrite_steps ch))) !!! 5.
Proof. unfold final_map. apply susDemote_lookup_5. Qed.

Lemma minor_flat5_removed (o : Order) (ch : Chord) :
  Order_ok o -> Triad ch = Min3 -> In (mkTone 5 Flat) (ExtraTones ch) ->
  Forall (fun e => 1 <= tone_Val e <= 14 /\ tone_Val e <> 12) (ExtraTones ch) ->
  ~ In (mkTone 5 Flat)
       (sort_Sort tones_Less (ord_sort o) (flatten o (final_map o ch))).
Proof.
  intros Ho Htr Hin Hv Hfin.
  destruct (minor_flat5_steps ch Htr Hin) as (_ & H5 & H12).
  cbv zeta in H5, H12.
  assert (Hv' : Forall (fun e => 1 <= tone_Val e <= 14) (ExtraTones ch)).
  { rewrite List.Forall_forall in *. intros e He. apply (Hv e He). }
  pose proof (wk_rewrite_steps ch Hv') as W.
  assert (Hfl : In (mkTone 5 Flat) (flatten o (final_map o ch))).
  { unfold sort_Sort in Hfin.
    apply (Permutation_in _ (insertion_sort_perm tones_Less _)) in Hfin.
    destruct Ho as (_ & _ & Hs).
    eapply Permutation_in; [apply Hs | exact Hfin]. }
  apply (flatten_In o _ (mkTone 5 Flat) 5 (wk_final_map o ch Ho Hv') eq_refl) in Hfl.
  rewrite final_map_lookup_5 in Hfl.
  apply (Permutation_in _ (dedup_lookup o _ 5 Ho)) in Hfl.
  apply (proj1 (In_elements_list_to_set _ _)) in Hfl.
  revert Hfl. apply consolidate_keeps_flat5; [exact Ho | exact W | |].
  - unfold rewrite_steps. rewrite late_steps_lookup by (left; reflexivity). exact H5.
  - unfold rewrite_steps. rewrite late_steps_lookup by (right; reflexivity).
    rewrite H12. apply filter_filed_12_nil, Hv.
Qed.

(** C5, as the code has it.  For a chord not yet flagged canonical whose
    Triad is Minor and whose ExtraTones contain a flat 5, [Canonicalize]
    sets the Triad to Diminished when no 7th is stated (a tone of value
    7 that is not double-sharp) and none is implied (a tone above 7);
    when 7ths are stated and all of them are flat, to FullyDiminished;
    otherwise to HalfDiminished.  When moreover the tone values lie in
    1..14 and none is 12, no flat 5 is left in ExtraTones. *)
Theorem Canonicalize_minor_flat5 (o : Order) (ch : Chord) :
  Order_ok o -> canonical ch = false -> Triad ch = Min3 ->
  In (mkTone 5 Flat) (ExtraTones ch) ->
  Triad (Canonicalize_with o ch) =
    match stated_sevenths (ExtraTones ch) with
    | [] => if implies_seventh (ExtraTones ch) then HDim else Dim3
    | _ :: _ =>
        if forallb (fun s => tone_Acc s =? Flat) (stated_sevenths (ExtraTones ch))
        then FDim else HDim
    end /\
  (Forall (fun e => 1 <= tone_Val e <= 14 /\ tone_Val e <> 12) (ExtraTones ch) ->
   ~ In (mkTone 5 Flat) (ExtraTones (Canonicalize_with o ch))).
Proof.
  intros Ho Hc Htr Hin.
  destruct (Canonicalize_with_fresh o ch Hc) as [Et Ee].
  rewrite Et, Ee. split.
  - apply minor_flat5_triad; assumption.
  - intros Hv. apply minor_flat5_removed; assumption.
Qed.

Lemma Canonicalize_minor_flat5_witness :
  Triad (Canonicalize_with Order_rev
           (mkChord (mkNote C_ Natural) Min3
              [mkTone 13 Natural; mkTone 5 Flat; mkTone 7 Natural] noNote false))
  = HDim /\
  ~ In (mkTone 5 Flat)
       (ExtraTones (Canonicalize_with Order_rev
                      (mkChord (mkNote C_ Natural) Min3
                         [mkTone 13 Natural; mkTone 5 Flat; mkTone 7 Natural]
                         noNote false))).
Proof.
  destruct (Canonicalize_minor_flat5 Order_rev
              (mkChord (mkNote C_ Natural) Min3
                 [mkTone 13 Natural; mkTone 5 Flat; mkTone 7 Natural] noNote false)
              Order_rev_ok eq_refl eq_refl (or_intror (or_introl eq_refl)))
    as [Ht Hn].
  split.
  - exact Ht.
  - apply Hn. repeat constructor; simpl; lia.
Defined.

(** C5 as stated fails: a minor chord with a flat 5 and a flat 7
    ("C-b7b5", valid) becomes fully diminished, not half diminished. *)
Lemma Canonicalize_minor_flat5_counterexample :
  let c := mkChord (mkNote C_ Natural) Min3 [mkTone 5 Flat; mkTone 7 Flat] noNote false in
  ParseChord "C-b7b5" = Ok (Some c, None) /\
  snd (Validate c) = None /\
  Triad c = Min3 /\
  In (mkTone 5 Flat) (ExtraTones c) /\
  In (mkTone 7 Flat) (ExtraTones c) /\
  (forall o, Triad (Canonicalize_with o c) = FDim) /\
  ~ (forall o, Triad (Canonicalize_with o c) = HDim).
Proof.
  cbv zeta.
  split; [vm_compute; reflexivity |]. split; [vm_compute; reflexivity |].
  split; [reflexivity |]. split; [left; reflexivity |].
  split; [right; left; reflexivity |]. split.
  - intros o. vm_compute. reflexivity.
  - intros H. specialize (H Order_id). vm_compute in H. discriminate.
Qed.

(** Two further departures.  A flat 12 (valid for [Validate]) together
    with a 7th is folded back to a flat 5 after the flat 5 was removed;
    and on a chord already flagged canonical nothing happens: the
    canonical form of "Csusbb4b5" is a minor triad that keeps its flat 5. *)
Lemma Canonicalize_flat12_leaves_flat5 :
  let c := mkChord (mkNote C_ Natural) Min3
                   [mkTone 5 Flat; mkTone 12 Flat; mkTone 7 Natural] noNote false in
  snd (Validate c) = None /\
  Canonicalize c = mkChord (mkNote C_ Natural) HDim [mkTone 7 Natural; mkTone 5 Flat]
                           noNote true.
Proof. cbv zeta. split; vm_compute; reflexivity. Qed.

(** C7 as stated fails.  The chords parsed from "C-b5" and obtained by
    canonicalizing "Csusbb4b5" have the same Root, Triad, ExtraTones and
    Bass; the second carries the canonical flag and is left alone, the
    first becomes a diminished triad. *)
Lemma Canonicalize_flag_counterexample :
  let c1 := mkChord (mkNote C_ Natural) Min3 [mkTone 5 Flat] noNote false in
  let c2 := mkChord (mkNote C_ Natural) Min3 [mkTone 5 Flat] noNote true in
  ParseChord "C-b5" = Ok (Some c1, None) /\
  (exists s, ParseChord "Csusbb4b5" = Ok (Some s, None) /\ snd (Validate s) = None /\
             Canonicalize s = c2) /\
  Root c1 = Root c2 /\ Triad c1 = Triad c2 /\ ExtraTones c1 = ExtraTones c2 /\
  Bass c1 = Bass c2 /\
  Canonicalize c1 = mkChord (mkNote C_ Natural) Dim3 [] noNote true /\
  Canonicalize c2 = c2 /\
  ~ (forall o1 o2 (a b : Chord),
       Order_ok o1 -> Order_ok o2 ->
       Root a = Root b -> Triad a = Triad b -> ExtraTones a = ExtraTones b ->
       Bass a = Bass b ->
       Canonicalize_with o1 a = Canonicalize_with o2 b).
Proof.
  cbv zeta. split; [vm_compute; reflexivity |]. split.
  { eexists. split; [vm_compute; reflexivity |]. split; vm_compute; reflexivity. }
  repeat (split; [reflexivity |]).
  intros H.
  specialize (H Order_id Order_id
                (mkChord (mkNote C_ Natural) Min3 [mkTone 5 Flat] noNote false)
                (mkChord (mkNote C_ Natural) Min3 [mkTone 5 Flat] noNote true)
                Order_id_ok Order_id_ok eq_refl eq_refl eq_refl eq_refl).
  vm_compute in H. discriminate.
Qed.

(** Outside the valid tone values the sort is not determined: value 127
    ranks with 5 (both map to MaxInt8), so a sharp 5 and a sharp "127"
    may come out in either order. *)
Lemma Canonicalize_unstable_on_value_127 :
  let c := mkChord (mkNote C_ Natural) Min3 [mkTone 5 Sharp; mkTone 127 Sharp]
                   noNote false in
  Order_ok (mkOrder (fun _ ks => ks) (fun _ l => l) (@rev ChordTone)) /\
  ExtraTones (Canonicalize_with Order_id c)
  <> ExtraTones (Canonicalize_with
                   (mkOrder (fun _ ks => ks) (fun _ l => l) (@rev ChordTone)) c).
Proof.
  cbv zeta. split.
  - repeat split; intros; simpl; try reflexivity. symmetry. apply Permutation_rev.
  - vm_compute. discriminate.
Qed.
